(** * A shallow embedding of the HTML structure analysis of who_am_i

    The repository has two scanners over the raw text of an HTML document:
    - [findCompleteHtmlElement] (src/src/extension.ts), the element-range
      locator used by the delete command;
    - [parseHTMLHierarchy] and [extractAttribute] (src/src/TreeDataProvider.ts),
      the tree builder feeding the sidebar view.

    Documents are ASCII texts, represented as [list ascii]; a JS index
    [text[i]] is [nth_error text i] (an index past the end reads [undefined],
    which compares unequal to every character). *)

From Stdlib Require Import Ascii String Arith Lia ZArith Bool List.
Import ListNotations.

Module Text.

Definition text := list ascii.

(** String literals: [str] turns a Rocq string into a text; [html] does the
    same and reads every single quote as a double quote, so that attribute
    values can be written inside Rocq strings. *)
Definition str (s : string) : text := list_ascii_of_string s.

Definition dquote : ascii := ascii_of_nat 34.

Definition html (s : string) : text :=
  map (fun c => if Ascii.eqb c "'"%char then dquote else c) (str s).

Definition is_char (s : text) (i : nat) (c : ascii) : bool :=
  match nth_error s i with
  | Some c' => Ascii.eqb c' c
  | None => false
  end.

Fixpoint text_eqb (a b : text) : bool :=
  match a, b with
  | [], [] => true
  | x :: a', y :: b' => Ascii.eqb x y && text_eqb a' b'
  | _, _ => false
  end.

(** [prefixb p s]: [s] starts with [p]. *)
Fixpoint prefixb (p s : text) : bool :=
  match p, s with
  | [], _ => true
  | x :: p', y :: s' => Ascii.eqb x y && prefixb p' s'
  | _ :: _, [] => false
  end.

(** [String.prototype.substring(i, j)] for [i <= j]. *)
Definition substring (s : text) (i j : nat) : text := firstn (j - i) (skipn i s).

Definition ends_with (suffix s : text) : bool := prefixb (rev suffix) (rev s).

Fixpoint take_while (p : ascii -> bool) (l : text) : text :=
  match l with
  | [] => []
  | x :: r => if p x then x :: take_while p r else []
  end.

(** The first position [j] in [from, from + n) satisfying [p]. *)
Fixpoint find_from (p : nat -> bool) (from n : nat) : option nat :=
  match n with
  | 0 => None
  | S m => if p from then Some from else find_from p (S from) m
  end.

(** [s.indexOf(pat, from)]. *)
Definition index_of (s pat : text) (from : nat) : option nat :=
  find_from (fun j => prefixb pat (skipn j s)) from (length s - from).

(** Character classes of the regular expressions (ASCII). *)
Definition in_range (lo hi : nat) (c : ascii) : bool :=
  (lo <=? nat_of_ascii c) && (nat_of_ascii c <=? hi).

Definition is_upper (c : ascii) : bool := in_range 65 90 c.
Definition is_lower (c : ascii) : bool := in_range 97 122 c.
Definition is_digit (c : ascii) : bool := in_range 48 57 c.
(** [[a-zA-Z]] *)
Definition is_letter (c : ascii) : bool := is_upper c || is_lower c.
(** [[a-zA-Z0-9\-]] *)
Definition is_name_char (c : ascii) : bool :=
  is_letter c || is_digit c || Ascii.eqb c "-"%char.
(** [\w] = [[A-Za-z0-9_]] *)
Definition is_word (c : ascii) : bool :=
  is_letter c || is_digit c || Ascii.eqb c "_"%char.
(** [\s] on ASCII: tab, line feed, vertical tab, form feed, carriage return, space. *)
Definition is_space (c : ascii) : bool :=
  in_range 9 13 c || Ascii.eqb c " "%char.

Definition to_lower_char (c : ascii) : ascii :=
  if is_upper c then ascii_of_nat (nat_of_ascii c + 32) else c.

(** [toLowerCase()] *)
Definition to_lower (s : text) : text := map to_lower_char s.

End Text.

Import Text.

(** ** The element-range locator: [findCompleteHtmlElement] *)
Module Locator.

(** The regular expression [^<([a-zA-Z][a-zA-Z0-9\-]* ) [^>]* >] of the source
    (written here with blanks) matched against [text.substring(i)]: the
    captured tag name, if it matches. *)
Definition open_tag_match (s : text) (i : nat) : option text :=
  match skipn i s with
  | c0 :: c1 :: rest =>
      if Ascii.eqb c0 "<"%char && is_letter c1 then
        let name := c1 :: take_while is_name_char rest in
        if existsb (fun c => Ascii.eqb c ">"%char) (skipn (length name) (c1 :: rest))
        then Some name else None
      else None
  | _ => None
  end.

(** The inner [while] of the backward search:
    [while (tagStartPos > 0 && text[tagStartPos] !== '<') tagStartPos--]. *)
Fixpoint walk_back (s : text) (p : nat) : nat :=
  match p with
  | 0 => 0
  | S q => if is_char s p "<"%char then p else walk_back s q
  end.

(** Outcome of one iteration of a search loop. *)
Inductive iteration := Found (tagStart : nat) (tagName : text) | Break | Continue.

(** The opening-tag test shared by both searches:
    [if (text[i] === '<' && i < text.length - 1)] with the comment / closing skip. *)
Definition opening_candidate (s : text) (i : nat) : iteration :=
  if is_char s i "<"%char && (i <? length s - 1) then
    if text_eqb (substring s i (i + 4)) (str "<!--") || is_char s (i + 1) "/"%char
    then Continue
    else match open_tag_match s i with
         | Some name => Found i (to_lower name)
         | None => Continue
         end
  else Continue.

(** One iteration of the backward [for] loop at index [i]. A [continue] in
    the first block skips the closing-tag test. *)
Definition back_body (s : text) (i : nat) : iteration :=
  let closing_test :=
    if is_char s i ">"%char && (0 <? i) && negb (is_char s (i - 1) "/"%char) then
      let tagStartPos := walk_back s i in
      if is_char s (tagStartPos + 1) "/"%char then Break else Continue
    else Continue in
  if is_char s i "<"%char && (i <? length s - 1) then
    if text_eqb (substring s i (i + 4)) (str "<!--") || is_char s (i + 1) "/"%char
    then Continue
    else match open_tag_match s i with
         | Some name => Found i (to_lower name)
         | None => closing_test
         end
  else closing_test.

(** [for (let i = offset; i >= 0; i--)] *)
Fixpoint back_search (s : text) (i : nat) : option (nat * text) :=
  match back_body s i with
  | Found st name => Some (st, name)
  | Break => None
  | Continue => match i with 0 => None | S j => back_search s j end
  end.

(** [for (let i = from; i < text.length; i++)], with [n] iterations left. *)
Fixpoint forward_search (s : text) (i n : nat) : option (nat * text) :=
  match n with
  | 0 => None
  | S m =>
      match opening_candidate s i with
      | Found st name => Some (st, name)
      | _ => forward_search s (S i) m
      end
  end.

(** The anchor opening tag: backward first, then forward from the offset. *)
Definition find_anchor (s : text) (offset : nat) : option (nat * text) :=
  match back_search s offset with
  | Some r => Some r
  | None => forward_search s offset (length s - offset)
  end.

Definition voidElements : list text :=
  map str ["area"; "base"; "br"; "col"; "embed"; "hr"; "img"; "input";
           "link"; "meta"; "source"; "track"; "wbr"]%string.

Definition is_void (t : text) : bool := existsb (text_eqb t) voidElements.

(** [new RegExp(`<${tagName}(?:\s|>)`, 'i')] matching at position [j]. *)
Definition open_at (s : text) (tagName : text) (j : nat) : bool :=
  is_char s j "<"%char
  && text_eqb (to_lower (firstn (length tagName) (skipn (S j) s))) tagName
  && match nth_error s (S j + length tagName) with
     | Some c => is_space c || Ascii.eqb c ">"%char
     | None => false
     end.

Definition closing_tag (tagName : text) : text := str "</" ++ tagName ++ str ">".

(** [text.indexOf(closingTag, p) === p] *)
Definition close_at (s : text) (tagName : text) (p : nat) : bool :=
  prefixb (closing_tag tagName) (skipn p s).

(** The matching loop [while (depth > 0 && searchStart < text.length)];
    [fuel] bounds the iterations (each one advances [searchStart]). *)
Fixpoint match_loop (s tagName : text) (tagStart fuel depth searchStart : nat)
  : option (nat * nat) :=
  match fuel with
  | 0 => None
  | S f =>
      if (0 <? depth) && (searchStart <? length s) then
        let closingTag := closing_tag tagName in
        let nextOpenPos :=
          find_from (open_at s tagName) searchStart (length s - searchStart) in
        match index_of s closingTag searchStart with
        | None => None
        | Some nextClosePos =>
            let found_close :=
              if depth - 1 =? 0
              then Some (tagStart, nextClosePos + length closingTag)
              else match_loop s tagName tagStart f (depth - 1)
                     (nextClosePos + length closingTag) in
            match nextOpenPos with
            | Some nextOpen =>
                if nextOpen <? nextClosePos
                then match_loop s tagName tagStart f (S depth)
                       (nextOpen + length tagName + 1)
                else found_close
            | None => found_close
            end
        end
      else None
  end.

(** [findCompleteHtmlElement(text, offset)]; [None] is [null]. *)
Definition findCompleteHtmlElement (s : text) (offset : nat) : option (nat * nat) :=
  match find_anchor s offset with
  | None => None
  | Some (tagStart, tagName) =>
      match index_of s (str ">") tagStart with
      | None => None
      | Some openingTagEnd =>
          let openingTag := substring s tagStart (openingTagEnd + 1) in
          if ends_with (str "/>") openingTag then Some (tagStart, openingTagEnd + 1)
          else if is_void tagName then Some (tagStart, openingTagEnd + 1)
          else match_loop s tagName tagStart (length s) 1 (openingTagEnd + 1)
      end
  end.

End Locator.

Import Locator.

(** ** The tree builder: [parseHTMLHierarchy] and [extractAttribute] *)
Module TreeBuilder.

(** One match of the tag expression [/<\/?(\w+)([^>]* )>/g] (without the
    blank): the whole match, group 1 and group 2. *)
Record TagMatch := mkMatch {
  m_index : nat;
  m_full : text;
  m_name : text;
  m_attrs : text
}.

(** [[^>]* >] (without the blank): the characters before the first [>],
    and what follows it. *)
Fixpoint split_at_gt (l : text) : option (text * text) :=
  match l with
  | [] => None
  | c :: r =>
      if Ascii.eqb c ">"%char then Some ([], r)
      else match split_at_gt r with
           | Some (a, b) => Some (c :: a, b)
           | None => None
           end
  end.

(** The regular expression anchored at the head of [r]: [\/?] is tried
    first; when it is taken and the rest fails, dropping it cannot help,
    since [\w+] does not match [/]. *)
Definition tag_regex_at (r : text) : option (text * text * text) :=
  match r with
  | c0 :: r1 =>
      if Ascii.eqb c0 "<"%char then
        let slash := match r1 with c :: _ => Ascii.eqb c "/"%char | [] => false end in
        let r2 := if slash then tl r1 else r1 in
        let name := take_while is_word r2 in
        match name with
        | [] => None
        | _ :: _ =>
            match split_at_gt (skipn (length name) r2) with
            | Some (attrs, _) =>
                let full_len := 1 + (if slash then 1 else 0) + length name
                                + length attrs + 1 in
                Some (firstn full_len r, name, attrs)
            | None => None
            end
        end
      else None
  | [] => None
  end.

(** The successive results of [tagRegex.exec(htmlContent)]: from [lastIndex]
    the first position where the expression matches, then [lastIndex] moves
    past the match. [r] is the text from [pos] on; [fuel] bounds the steps. *)
Fixpoint exec_all (fuel : nat) (r : text) (pos : nat) : list TagMatch :=
  match fuel with
  | 0 => []
  | S f =>
      match r with
      | [] => []
      | _ :: r' =>
          match tag_regex_at r with
          | Some (full, name, attrs) =>
              mkMatch pos full name attrs
                :: exec_all f (skipn (length full) r) (pos + length full)
          | None => exec_all f r' (S pos)
          end
      end
  end.

Definition tag_matches (htmlContent : text) : list TagMatch :=
  exec_all (S (length htmlContent)) htmlContent 0.

(** [extractAttribute]: the expression [attrName \s* = \s* Q ([^Q]+) Q] with
    flag [i] (no blanks in the source; Q stands for the class of the two
    quote characters), matched at the head of [r]. *)
Definition is_quote (c : ascii) : bool := Ascii.eqb c dquote || Ascii.eqb c "'"%char.

Fixpoint drop_while (p : ascii -> bool) (l : text) : text :=
  match l with
  | [] => []
  | x :: r => if p x then drop_while p r else l
  end.

Definition attr_regex_at (attrName r : text) : option text :=
  if text_eqb (to_lower (firstn (length attrName) r)) attrName then
    match drop_while is_space (skipn (length attrName) r) with
    | c :: r3 =>
        if Ascii.eqb c "="%char then
          match drop_while is_space r3 with
          | q :: r5 =>
              if is_quote q then
                let v := take_while (fun c => negb (is_quote c)) r5 in
                match v, skipn (length v) r5 with
                | _ :: _, q' :: _ => if is_quote q' then Some v else None
                | _, _ => None
                end
              else None
          | [] => None
          end
        else None
    | [] => None
    end
  else None.

(** [attributes.match(regex)]: the leftmost match. *)
Fixpoint attr_search (attrName r : text) : option text :=
  match attr_regex_at attrName r with
  | Some v => Some v
  | None => match r with [] => None | _ :: r' => attr_search attrName r' end
  end.

Definition extractAttribute (attributes attrName : text) : text :=
  match attr_search attrName attributes with
  | Some v => v
  | None => []
  end.

(** [className.split(' ')[0]] *)
Definition first_class (className : text) : text :=
  take_while (fun c => negb (Ascii.eqb c " "%char)) className.

Inductive CollapsibleState := CS_None | CS_Collapsed.

(** A [Dependency] tree item; its [children] array holds references (store
    locations) of other items. [version] is the description. *)
Record Dependency := mkDependency {
  label : text;
  version : text;
  collapsibleState : CollapsibleState;
  children : list nat;
  tagName : text;
  elementId : text;
  className : text
}.

Definition default_dependency : Dependency :=
  mkDependency [] [] CS_None [] [] [] [].

(** The object store: item [n] lives at index [n]; [stack] has its top first. *)
Record State := mkState {
  store : list Dependency;
  stack : list nat;
  roots : list nat
}.

Definition init_state : State := mkState [] [] [].

Definition selfClosingTags : list text :=
  map str ["img"; "br"; "hr"; "input"; "meta"; "link"; "source"; "area";
           "base"; "col"; "embed"; "track"; "wbr"]%string.

Definition is_self_closing_tag (t : text) : bool :=
  existsb (text_eqb t) selfClosingTags.

Definition non_empty (t : text) : bool := match t with [] => false | _ => true end.

Fixpoint update_at {A} (l : list A) (i : nat) (f : A -> A) : list A :=
  match l, i with
  | [], _ => []
  | x :: r, 0 => f x :: r
  | x :: r, S j => x :: update_at r j f
  end.

(** [updateCollapsibleState()]: the [newItem] it builds is dropped. *)
Definition updateCollapsibleState (d : Dependency) : Dependency :=
  match children d with
  | [] => d
  | _ => mkDependency (label d) (version d) CS_Collapsed (children d)
           (tagName d) (elementId d) (className d)
  end.

Definition push_child (n : nat) (d : Dependency) : Dependency :=
  mkDependency (label d) (version d) (collapsibleState d) (children d ++ [n])
    (tagName d) (elementId d) (className d).

Definition lookup (h : list Dependency) (i : nat) : Dependency :=
  nth i h default_dependency.

Definition isClosingTag (m : TagMatch) : bool := prefixb (str "</") (m_full m).

Definition isSelfClosing (m : TagMatch) : bool :=
  ends_with (str "/>") (m_full m) || is_self_closing_tag (to_lower (m_name m)).

Definition is_skipped (m : TagMatch) : bool :=
  text_eqb (to_lower (m_name m)) (str "!doctype") || prefixb (str "<!--") (m_full m).

(** The new item for an opening tag. *)
Definition make_element (m : TagMatch) : Dependency :=
  let tn := to_lower (m_name m) in
  let id := extractAttribute (m_attrs m) (str "id") in
  let cls := extractAttribute (m_attrs m) (str "class") in
  let lbl := str "<" ++ tn ++ str ">"
             ++ (if non_empty id then str " #" ++ id else [])
             ++ (if non_empty cls then str " ." ++ first_class cls else []) in
  let description := if non_empty id then id else if non_empty cls then cls else tn in
  let cs := if negb (isSelfClosing m) && negb (is_self_closing_tag tn)
            then CS_Collapsed else CS_None in
  mkDependency lbl description cs [] tn id cls.

(** The body of the [while] loop for one match. *)
Definition step (st : State) (m : TagMatch) : State :=
  let tn := to_lower (m_name m) in
  if is_skipped m then st
  else if isClosingTag m then
    match stack st with
    | top :: rest =>
        if text_eqb (tagName (lookup (store st) top)) tn
        then mkState (store st) rest (roots st)
        else st
    | [] => st
    end
  else
    let n := length (store st) in
    let h := store st ++ [make_element m] in
    let '(h', roots') :=
      match stack st with
      | parent :: _ =>
          (update_at h parent (fun d => updateCollapsibleState (push_child n d)), roots st)
      | [] => (h, roots st ++ [n])
      end in
    mkState h' (if negb (isSelfClosing m) then n :: stack st else stack st) roots'.

Definition run (st : State) (ms : list TagMatch) : State := fold_left step ms st.

#[local] Set Warnings "-register-all".

(** The items as a value: each node carries its store location (the object
    identity) and its children, read from the store. *)
Inductive Node := mkNode {
  node_ref : nat;
  node_item : Dependency;
  node_kids : list Node
}.

Fixpoint reify (h : list Dependency) (fuel i : nat) : Node :=
  match fuel with
  | 0 => mkNode i (lookup h i) []
  | S f => mkNode i (lookup h i) (map (reify h f) (children (lookup h i)))
  end.

(** [parseHTMLHierarchy(htmlContent)]: the root items [roots] with their trees. *)
Definition parseHTMLHierarchy (htmlContent : text) : list Node :=
  let st := run init_state (tag_matches htmlContent) in
  map (reify (store st) (length (store st))) (roots st).

End TreeBuilder.

Import TreeBuilder.

(** ** Reading the tree builder's result

    [preorder d n] lists the nodes of the tree [n] in document order with
    their depth ([d] for [n] itself). *)
Fixpoint preorder (d : nat) (n : Node) : list (Node * nat) :=
  match n with
  | mkNode r it kids =>
      (n, d) :: (fix go (l : list Node) : list (Node * nat) :=
                   match l with
                   | [] => []
                   | k :: l' => preorder (S d) k ++ go l'
                   end) kids
  end.

Definition forest_preorder (F : list Node) : list (Node * nat) :=
  flat_map (preorder 0) F.

(** References and depths of a forest, in document order. *)
Definition ref_depths (F : list Node) : list (nat * nat) :=
  map (fun p => (node_ref (fst p), snd p)) (forest_preorder F).

(** The same walk over the store: [ch h i] are the children of item [i]. *)
Definition ch (h : list Dependency) (i : nat) : list nat := children (lookup h i).

Fixpoint pre (h : list Dependency) (f d i : nat) : list (nat * nat) :=
  match f with
  | 0 => [(i, d)]
  | S g => (i, d) :: flat_map (pre h g (S d)) (ch h i)
  end.

(** The tokens that create an item, in order: item [k] is created by the
    [k]-th of them. *)
Definition opening_tokens (ms : list TagMatch) : list TagMatch :=
  filter (fun m => negb (is_skipped m || isClosingTag m)) ms.

(** The number of open elements on the stack when each item is created. *)
Fixpoint creation_depths (st : State) (ms : list TagMatch) : list nat :=
  match ms with
  | [] => []
  | m :: ms' =>
      (if is_skipped m || isClosingTag m then [] else [length (stack st)])
        ++ creation_depths (step st m) ms'
  end.

Definition no_match : TagMatch := mkMatch 0 [] [] [].

(** Well-formed token streams, with the nesting depth of each opening token
    in order: an opening token that is self-closing ([/>]) or void is a leaf
    and takes no closing token; any other opening token is closed by the
    first same-name closing token after a well-formed body. *)
Inductive wf_tokens : nat -> list TagMatch -> list nat -> Prop :=
| wf_nil d : wf_tokens d [] []
| wf_leaf d m rest ds :
    isClosingTag m = false -> isSelfClosing m = true ->
    wf_tokens d rest ds -> wf_tokens d (m :: rest) (d :: ds)
| wf_elem d m body c rest dsb dsr :
    isClosingTag m = false -> isSelfClosing m = false ->
    wf_tokens (S d) body dsb ->
    isClosingTag c = true -> to_lower (m_name c) = to_lower (m_name m) ->
    wf_tokens d rest dsr ->
    wf_tokens d (m :: body ++ c :: rest) (d :: dsb ++ dsr).

(** Well-formedness read literally: every opening token, void or not, has a
    matching same-name closing token, properly nested. *)
Inductive wf_literal : nat -> list TagMatch -> list nat -> Prop :=
| wl_nil d : wf_literal d [] []
| wl_elem d m body c rest dsb dsr :
    isClosingTag m = false ->
    wf_literal (S d) body dsb ->
    isClosingTag c = true -> to_lower (m_name c) = to_lower (m_name m) ->
    wf_literal d rest dsr ->
    wf_literal d (m :: body ++ c :: rest) (d :: dsb ++ dsr).


(** Nodes along the last-child path from the roots: [path_ok h ids path]
    holds when the head of [path] is the last of [ids], its successor the
    last child of the head, and so on. *)
Fixpoint path_ok (h : list Dependency) (ids : list nat) (path : list nat) : Prop :=
  match path with
  | [] => True
  | x :: rest => (exists ids0, ids = ids0 ++ [x]) /\ path_ok h (ch h x) rest
  end.

(** The invariant of the tree builder's loop, after the opening tokens [ops]
    whose items were created at stack depths [ds]: items only point to later
    items; the walk from the roots visits the items in creation order at their
    creation depth; the stack is the last-child path; stacked items are not
    self-closing; items keep their tag names; leaves have no children. *)
Definition tb_inv (ops : list TagMatch) (ds : list nat) (st : State) : Prop :=
  let h := store st in
  let N := length h in
  length ops = N /\ length ds = N /\
  (forall j c, In c (ch h j) -> j < c < N) /\
  (forall r, In r (roots st) -> r < N) /\
  flat_map (pre h N 0) (roots st) = combine (seq 0 N) ds /\
  path_ok h (roots st) (rev (stack st)) /\
  (forall x, In x (stack st) -> x < N /\ isSelfClosing (nth x ops no_match) = false) /\
  length (stack st) <= N /\
  (forall k, k < N -> tagName (lookup h k) = to_lower (m_name (nth k ops no_match))) /\
  (forall k, k < N -> isSelfClosing (nth k ops no_match) = true -> ch h k = []).

(** Tag balance of a name over a token stream: [+1] for an opening token of
    that name that is not a leaf, [-1] for a closing token of that name. *)
Fixpoint tag_balance (t : text) (ms : list TagMatch) : Z :=
  match ms with
  | [] => 0%Z
  | m :: ms' =>
      ((if text_eqb (to_lower (m_name m)) t then
          if isClosingTag m then (-1)%Z
          else if isSelfClosing m then 0%Z else 1%Z
        else 0%Z) + tag_balance t ms')%Z
  end.


(** ** Raw same-name tag count of the matching loop

    The matching loop counts raw occurrences: [+1] for every [<tagName]
    followed by whitespace or [>] (case-insensitive), [-1] for every exact
    [</tagName>]. [rawbal s t a n] sums these over the positions [a .. a+n-1]. *)
Fixpoint rawbal (s t : text) (a n : nat) : Z :=
  match n with
  | 0 => 0%Z
  | S m =>
      ((if open_at s t a then 1 else 0) - (if close_at s t a then 1 else 0)
       + rawbal s t (S a) m)%Z
  end.

(** The close at [c] brings the counter, started at 1 at position [a], to zero:
    the counter stays positive up to [c] and is 1 right before [c]. *)
Definition closes_to_zero (s t : text) (a c : nat) : Prop :=
  close_at s t c = true /\ a <= c /\ rawbal s t a (c - a) = 0%Z
  /\ forall q, a <= q <= c -> (0 <= rawbal s t a (q - a))%Z.

Definition nested_divs : text := html "<div id='outer'><div id='inner'>x</div></div>".

Definition range_eqb (r1 r2 : option (nat * nat)) : bool :=
  match r1, r2 with
  | Some (a, b), Some (c, d) => (a =? c) && (b =? d)
  | None, None => true
  | _, _ => false
  end.

Definition commented_div : text := html "<!-- <div id='x'></div> -->".
Definition unterminated_div : text := html "<div id='x'>".
Definition div_x : text := html "<div>x</div>".
Definition div_with_close_in_attr : text := html "<div><p title='</div>'></p></div>".

Definition br_p : text := html "<br><p></p></br>".
Definition div_p : text := html "<div><p>x</p></div>".
Definition div_br : text := html "<div><br></div>".

Definition span_tag : text := html "<span class='foo bar' id='s1'>".
Definition one_tag : text := str "<1>".

(** The tag pattern as the specification words it: [<], an optional [/], an
    ASCII letter, letters, digits or hyphens, a run of non-[>] characters,
    [>]; the last three amount to a [>] somewhere after the letter. *)
Definition claimed_tag_at (r : text) : bool :=
  match r with
  | c0 :: r1 =>
      Ascii.eqb c0 "<"%char &&
      match (match r1 with
             | c :: r' => if Ascii.eqb c "/"%char then r' else r1
             | [] => r1
             end) with
      | c :: r3 => is_letter c && existsb (fun x => Ascii.eqb x ">"%char) r3
      | [] => false
      end
  | [] => false
  end.

(** The store after an opening tag attached to the parent [p]. *)
Definition attach (h : list Dependency) (p : nat) (e : Dependency) : list Dependency :=
  update_at (h ++ [e]) p (fun d => updateCollapsibleState (push_child (length h) d)).

(** An item without its children, for comparing items field by field. *)
Definition strip (d : Dependency) : Dependency :=
  mkDependency (label d) (version d) (collapsibleState d) [] (tagName d) (elementId d)
    (className d).

(** Every created item, apart from its children, is the element made from its
    opening token. *)
Definition fields_inv (ops : list TagMatch) (st : State) : Prop :=
  forall k, k < length (store st) ->
    strip (lookup (store st) k) = strip (make_element (nth k ops no_match)).

(** * The commands and helpers of [extension.ts] *)

(** ** [helloworld.removeHtmlElement] *)

(** [selection.isEmpty ? offsetAt(selection.active) : offsetAt(selection.start)],
    with positions as offsets; the selection runs from [anchor] to [active]
    and its start is the smaller one. *)
Definition cursorOffset (anchor active : nat) : nat :=
  let start := Nat.min anchor active in
  if anchor =? active then active else start.

Inductive RemoveOutcome :=
| NoActiveEditor
| NotAnHtmlFile
| ElementNotFound
| RemovalCancelled
| EditFailed
| ElementRemoved (newText : text).

(** The command with the active editor (file name and text), the selection,
    the answer to the confirmation message ([None] when it is dismissed) and
    whether [workspace.applyEdit] succeeds. The edit replaces the range
    [start, end) by the empty text. *)
Definition removeHtmlElement (editor : option (text * text)) (anchor active : nat)
    (answer : option text) (applied : bool) : RemoveOutcome :=
  match editor with
  | None => NoActiveEditor
  | Some (fileName, fullText) =>
      if negb (ends_with (str ".html") fileName) then NotAnHtmlFile
      else
        match findCompleteHtmlElement fullText (cursorOffset anchor active) with
        | None => ElementNotFound
        | Some (st, e) =>
            match answer with
            | Some a =>
                if text_eqb a (str "Remove") then
                  if applied then ElementRemoved (firstn st fullText ++ skipn e fullText)
                  else EditFailed
                else RemovalCancelled
            | None => RemovalCancelled
            end
        end
  end.

(** ** Settings *)

(** A settings object as the JS object it is read from: its keys and values
    in insertion order. *)
Definition Config := list (text * text).

(** [config.get(key)]; [None] is [undefined]. *)
Fixpoint cfg_get (c : Config) (k : text) : option text :=
  match c with
  | [] => None
  | (k', v) :: c' => if text_eqb k' k then Some v else cfg_get c' k
  end.

(** Setting a key: in place when present, appended otherwise. *)
Fixpoint cfg_set (c : Config) (k v : text) : Config :=
  match c with
  | [] => [(k, v)]
  | (k', v') :: c' => if text_eqb k' k then (k', v) :: c' else (k', v') :: cfg_set c' k v
  end.

Definition cfg_remove (c : Config) (k : text) : Config :=
  filter (fun kv => negb (text_eqb (fst kv) k)) c.

(** [config.update(key, value)]; the value [undefined] removes the key. *)
Definition cfg_update (c : Config) (k : text) (v : option text) : Config :=
  match v with
  | Some x => cfg_set c k x
  | None => cfg_remove c k
  end.

(** JS truthiness of a setting that holds a string or is [undefined]. *)
Definition truthy (v : option text) : bool :=
  match v with
  | Some (_ :: _) => true
  | _ => false
  end.

(** [v || null] *)
Definition or_null (v : option text) : option text :=
  if truthy v then v else None.

(** ** Backups *)

(** The outside world of the backup helpers: [path.basename], [path.join],
    [fs.existsSync], [fs.readFileSync] ([None] when it throws), the time
    stamp [new Date().toISOString()], and whether VS Code accepts a write of
    the setting [whoAmI.<key>] to the workspace ([config.update] rejects, for
    instance, a key the extension does not register). *)
Record Env := mkEnv {
  basename : text -> text;
  join : list text -> text;
  existsSync : text -> bool;
  readFileSync : text -> option text;
  nowISO : text;
  updateAccepted : text -> bool
}.

Definition backupKey (fileName : text) : text := str "backup_" ++ fileName.

Definition timestampKey (key : text) : text := key ++ str "_timestamp".

(** [await config.update(key, value, ConfigurationTarget.Workspace)]: the
    new settings, or [None] when the promise rejects. *)
Definition config_update (env : Env) (c : Config) (k : text) (v : option text)
    : option Config :=
  if updateAccepted env k then Some (cfg_update c k v) else None.

(** [backupSingleFile(filePath, workspaceUri)] on the workspace settings of the
    [whoAmI] section: the settings afterwards, and [false] when it throws
    (a failed read or a rejected update; a backup written before a rejected
    time stamp update stays). *)
Definition backupSingleFile (env : Env) (filePath : text) (c : Config) : Config * bool :=
  let key := backupKey (basename env filePath) in
  if negb (truthy (cfg_get c key)) then
    match readFileSync env filePath with
    | None => (c, false)
    | Some content =>
        match config_update env c key (Some content) with
        | None => (c, false)
        | Some c1 =>
            match config_update env c1 (timestampKey key) (Some (nowISO env)) with
            | None => (c1, false)
            | Some c2 => (c2, true)
            end
        end
    end
  else (c, true).

(** [getBackupContent(fileUri)]; [inWorkspace] tells whether the file lies in
    a workspace folder. *)
Definition getBackupContent (env : Env) (inWorkspace : bool) (fileUri : text) (c : Config)
    : option text :=
  if inWorkspace then or_null (cfg_get c (backupKey (basename env fileUri))) else None.

(** ** Refreshing the views *)

(** The methods of the [DOMVisualizerProvider] class. *)
Definition DOMVisualizerProvider_methods : list text :=
  [str "getTreeItem"; str "getChildren"; str "parseHTMLFile"; str "extractHTMLElements";
   str "parseHTMLHierarchy"; str "extractAttribute"; str "pathExists"].

Definition has_method (methods : list text) (name : text) : bool :=
  existsb (text_eqb name) methods.

Inductive ViewAction := RefreshTree | ReloadWindow | NoRefresh | TypeErrorThrown.

(** The two properties of Node's [global] object the extension uses:
    [extensionContext] (an object that may hold a [domProvider]) and
    [domProvider], each provider given by its methods. *)
Record Globals := mkGlobals {
  extensionContext : option (option (list text));
  domProvider : option (list text)
}.

Definition init_globals : Globals := mkGlobals None None.

(** The writes of [activate] to [global]: the provider, when a workspace
    folder is open. *)
Definition activate_globals (rootPath : option text) (g : Globals) : Globals :=
  match rootPath with
  | Some _ => mkGlobals (extensionContext g) (Some DOMVisualizerProvider_methods)
  | None => g
  end.

(** An unguarded call [p.refresh()]. *)
Definition call_refresh (methods : list text) : ViewAction :=
  if has_method methods (str "refresh") then RefreshTree else TypeErrorThrown.

Definition refreshViews (g : Globals) : ViewAction :=
  match extensionContext g with
  | Some (Some p) => call_refresh p
  | _ => ReloadWindow
  end.

Definition resetExtensionState (g : Globals) : ViewAction :=
  match domProvider g with
  | Some p => if has_method p (str "refresh") then RefreshTree else NoRefresh
  | None => NoRefresh
  end.

(** The file watcher handlers call [refresh] on the provider they created. *)
Definition watcher_event (rootPath : option text) : option ViewAction :=
  match rootPath with
  | Some _ => Some (call_refresh DOMVisualizerProvider_methods)
  | None => None
  end.

(** Node's POSIX [path.join] and [path.basename] on plain names, for examples. *)
Fixpoint join_slash (parts : list text) : text :=
  match parts with
  | [] => []
  | [p] => p
  | p :: ps => p ++ str "/" ++ join_slash ps
  end.

Fixpoint after_last_slash (acc s : text) : text :=
  match s with
  | [] => acc
  | c :: s' => if Ascii.eqb c "/"%char then after_last_slash [] s'
               else after_last_slash (acc ++ [c]) s'
  end.

Definition basename_slash (p : text) : text := after_last_slash [] p.

(** An example environment: every file exists, only [w/who_am_i.html] can be
    read, and no setting write is accepted. *)
Definition env_ex : Env :=
  mkEnv basename_slash join_slash (fun _ => true)
    (fun p => if text_eqb p (str "w/who_am_i.html") then Some (html "<p></p>") else None)
    (str "2026-01-01T00:00:00.000Z") (fun _ => false).

(** ** Recovering and backing up the file of the active editor *)

Inductive RecoverOutcome :=
  | RecoverNoEditor
  | NoBackupFound
  | RecoverCancelled
  | RecoverFailed
  | Recovered (newText : text) (reset : ViewAction).

(** [helloworld.recoverOriginalFile]: [editor] is the path of the active
    editor's document, [inWorkspace] tells whether it lies in a workspace
    folder, [answer] is the button chosen in the warning message and
    [applied] the result of [workspace.applyEdit]. On success the whole text
    becomes the backup and [resetExtensionState] runs. *)
Definition recoverOriginalFile (env : Env) (g : Globals) (editor : option text)
    (inWorkspace : bool) (c : Config) (answer : option text) (applied : bool)
    : RecoverOutcome :=
  match editor with
  | None => RecoverNoEditor
  | Some fileUri =>
      match getBackupContent env inWorkspace fileUri c with
      | None => NoBackupFound
      | Some backupContent =>
          match answer with
          | Some a =>
              if text_eqb a (str "Recover Original") then
                if applied then Recovered backupContent (resetExtensionState g)
                else RecoverFailed
              else RecoverCancelled
          | None => RecoverCancelled
          end
      end
  end.

Inductive BackupCurrentOutcome :=
  | BackupNoEditor
  | NotInWorkspace
  | BackupFailed (c : Config)
  | BackedUp (c : Config).

(** [helloworld.backupCurrentFile]; [BackedUp] is the case that shows the
    message that the file has been backed up successfully. *)
Definition backupCurrentFile (env : Env) (editor : option text) (inWorkspace : bool)
    (c : Config) : BackupCurrentOutcome :=
  match editor with
  | None => BackupNoEditor
  | Some fileName =>
      if inWorkspace then
        match backupSingleFile env fileName c with
        | (c', true) => BackedUp c'
        | (c', false) => BackupFailed c'
        end
      else NotInWorkspace
  end.

(** ** Finding [who_am_i.html] in the workspace folders *)

Definition whoAmICandidate (env : Env) (folder : text) : text :=
  join env [folder; str "who_am_i.html"].

(** [isWhoAmIWorkspaceOpen()]; [None] stands for [workspaceFolders] being
    [undefined]. *)
Definition isWhoAmIWorkspaceOpen (env : Env) (folders : option (list text)) : bool :=
  match folders with
  | None | Some [] => false
  | Some fs => existsb (fun folder => existsSync env (whoAmICandidate env folder)) fs
  end.

Fixpoint first_existing_candidate (env : Env) (fs : list text) : option text :=
  match fs with
  | [] => None
  | folder :: fs' =>
      if existsSync env (whoAmICandidate env folder) then Some (whoAmICandidate env folder)
      else first_existing_candidate env fs'
  end.

(** The file that [openWhoAmIFileInEditor] and [openWhoAmIFileInBrowser]
    open, if any: the loop of both stops at the first existing candidate. *)
Definition openWhoAmIFile (env : Env) (folders : option (list text)) : option text :=
  match folders with
  | None => None
  | Some fs => first_existing_candidate env fs
  end.

Section FindFrom.

Variable p : nat -> bool.

Lemma find_from_some : forall n from j,
  find_from p from n = Some j ->
  from <= j < from + n /\ p j = true /\ (forall q, from <= q < j -> p q = false).
Proof.
  induction n as [|n IH]; intros from j H; simpl in H; [discriminate|].
  destruct (p from) eqn:Hp.
  - injection H as <-. repeat split; try lia; auto.
  - apply IH in H as (H1 & H2 & H3). repeat split; try lia; auto.
    intros q Hq. destruct (Nat.eq_dec q from) as [->|]; auto. apply H3; lia.
Qed.

Lemma find_from_none : forall n from,
  find_from p from n = None -> forall q, from <= q < from + n -> p q = false.
Proof.
  induction n as [|n IH]; intros from H q Hq; simpl in H; [lia|].
  destruct (p from) eqn:Hp; [discriminate|].
  destruct (Nat.eq_dec q from) as [->|]; auto. apply (IH (S from)); auto; lia.
Qed.

End FindFrom.

Lemma rawbal_app : forall s t n m a,
  rawbal s t a (n + m) = (rawbal s t a n + rawbal s t (a + n) m)%Z.
Proof.
  induction n as [|n IH]; intros m a; simpl.
  - rewrite Nat.add_0_r. reflexivity.
  - rewrite IH. replace (S a + n) with (a + S n) by lia. lia.
Qed.

Lemma rawbal_quiet : forall s t n a,
  (forall q, a <= q < a + n -> open_at s t q = false /\ close_at s t q = false) ->
  rawbal s t a n = 0%Z.
Proof.
  induction n as [|n IH]; intros a H; simpl; [reflexivity|].
  destruct (H a) as [-> ->]; [lia|]. rewrite IH; [reflexivity|].
  intros q Hq. apply H. lia.
Qed.

Lemma prefixb_nth : forall p l, prefixb p l = true ->
  forall k, k < length p -> nth_error l k = nth_error p k.
Proof.
  induction p as [|x p IH]; intros l H k Hk; simpl in *; [lia|].
  destruct l as [|y l]; [discriminate|].
  apply andb_prop in H as [Hxy H]. apply Ascii.eqb_eq in Hxy as ->.
  destruct k; [reflexivity|]. simpl. apply IH; auto; lia.
Qed.

Lemma prefixb_length : forall p l, prefixb p l = true -> length p <= length l.
Proof.
  induction p as [|x p IH]; intros l H; simpl; [lia|].
  destruct l as [|y l]; [discriminate|]. simpl in H.
  apply andb_prop in H as [_ H]. apply IH in H. simpl. lia.
Qed.

Lemma text_eqb_eq : forall a b, text_eqb a b = true <-> a = b.
Proof.
  induction a as [|x a IH]; intros [|y b]; simpl; try (split; intro H; congruence).
  rewrite andb_true_iff, Ascii.eqb_eq, IH. split.
  - intros [-> ->]. reflexivity.
  - intro H. injection H as -> ->. auto.
Qed.

Lemma is_char_nth : forall s i c, is_char s i c = true <-> nth_error s i = Some c.
Proof.
  intros s i c. unfold is_char. destruct (nth_error s i) as [c'|]; split; intro H;
    try discriminate.
  - apply Ascii.eqb_eq in H. subst. reflexivity.
  - injection H as ->. apply Ascii.eqb_refl.
Qed.

Lemma nth_error_skipn_add : forall {A} (l : list A) a k,
  nth_error (skipn a l) k = nth_error l (a + k).
Proof.
  intros A l a k. rewrite nth_error_skipn. reflexivity.
Qed.

Lemma close_at_ge_len : forall s t q, length s <= q -> close_at s t q = false.
Proof.
  intros s t q H. unfold close_at. rewrite skipn_all2 by exact H. reflexivity.
Qed.

Lemma open_at_ge_len : forall s t q, length s <= q -> open_at s t q = false.
Proof.
  intros s t q H. unfold open_at, is_char.
  rewrite (proj2 (nth_error_None s q) H). reflexivity.
Qed.

Lemma close_at_fits : forall s t c,
  close_at s t c = true -> c + length (closing_tag t) <= length s.
Proof.
  intros s t c H. apply prefixb_length in H. rewrite length_skipn in H. 
  unfold closing_tag in *. simpl in *. lia.
Qed.

Lemma to_lower_char_lt : forall x, to_lower_char x = "<"%char -> x = "<"%char.
Proof.
  intros x H. unfold to_lower_char in H. destruct (is_upper x) eqn:Hu; [|exact H].
  exfalso. unfold is_upper, in_range in Hu. apply andb_prop in Hu as [H1 H2].
  apply Nat.leb_le in H1. apply Nat.leb_le in H2.
  apply (f_equal nat_of_ascii) in H. rewrite nat_ascii_embedding in H by lia.
  change (nat_of_ascii "<"%char) with 60 in H. lia.
Qed.

Lemma no_lt_open_close : forall s t q, is_char s q "<"%char = false ->
  open_at s t q = false /\ close_at s t q = false.
Proof.
  intros s t q H. split.
  - unfold open_at. rewrite H. reflexivity.
  - destruct (close_at s t q) eqn:Hc; [|reflexivity]. exfalso.
    unfold close_at in Hc. apply prefixb_nth with (k := 0) in Hc; [|simpl; lia].
    rewrite nth_error_skipn_add, Nat.add_0_r in Hc. simpl in Hc.
    apply is_char_nth in Hc. congruence.
Qed.

Section Counting.

Variables (s t : text).
Hypothesis Ht : forallb is_name_char t = true.

Lemma name_not_lt : forall y, In y t -> y <> "<"%char.
Proof.
  intros y Hy ->. rewrite forallb_forall in Ht. specialize (Ht _ Hy). discriminate.
Qed.

Lemma name_not_slash : forall y, In y t -> y <> "/"%char.
Proof.
  intros y Hy ->. rewrite forallb_forall in Ht. specialize (Ht _ Hy). discriminate.
Qed.

(** The characters an opening occurrence [<tagName] reads, case-folded. *)
Lemma open_at_nth : forall j, open_at s t j = true ->
  forall k, k < length t ->
  nth_error t k = option_map to_lower_char (nth_error s (S j + k)).
Proof.
  intros j H k Hk. unfold open_at in H.
  apply andb_prop in H as [H _]. apply andb_prop in H as [_ H2].
  apply text_eqb_eq in H2. rewrite <- H2 at 1. unfold to_lower.
  rewrite nth_error_map, nth_error_firstn, nth_error_skipn_add.
  destruct (Nat.ltb_spec k (length t)); [reflexivity|lia].
Qed.

(** No [<] inside an opening occurrence after its first character. *)
Lemma open_at_quiet : forall j, open_at s t j = true ->
  forall k, k <= length t -> is_char s (S j + k) "<"%char = false.
Proof.
  intros j H k Hk. destruct (Nat.eq_dec k (length t)) as [->|Hne].
  - unfold open_at in H. apply andb_prop in H as [_ H3]. unfold is_char.
    destruct (nth_error s (S j + length t)) as [c|]; [|reflexivity].
    destruct (Ascii.eqb_spec c "<"%char) as [->|]; [discriminate|reflexivity].
  - pose proof (open_at_nth j H k ltac:(lia)) as E. unfold is_char.
    destruct (nth_error s (S j + k)) as [x|]; simpl in E.
    + destruct (Ascii.eqb_spec x "<"%char) as [->|]; [exfalso|reflexivity].
      apply nth_error_In in E. exact (name_not_lt _ E eq_refl).
    + apply nth_error_None in E. lia.
Qed.

Lemma closing_tag_nth : forall k x, 1 <= k ->
  nth_error (closing_tag t) k = Some x -> x <> "<"%char.
Proof.
  intros [|k] x Hk H; [lia|]. simpl in H. apply nth_error_In in H.
  destruct H as [<-|H]; [discriminate|]. apply in_app_or in H as [H|[<-|[]]].
  - exact (name_not_lt _ H).
  - discriminate.
Qed.

(** No [<] inside a closing occurrence [</tagName>] after its first character. *)
Lemma close_at_quiet : forall c, close_at s t c = true ->
  forall k, 1 <= k < length (closing_tag t) -> is_char s (c + k) "<"%char = false.
Proof.
  intros c H k Hk. unfold close_at in H. apply prefixb_nth with (k := k) in H; [|lia].
  rewrite nth_error_skipn_add in H. unfold is_char. rewrite H.
  destruct (nth_error (closing_tag t) k) as [x|] eqn:E; [|reflexivity].
  destruct (Ascii.eqb_spec x "<"%char) as [->|]; [|reflexivity].
  exfalso. exact (closing_tag_nth k _ (proj1 Hk) E eq_refl).
Qed.

Lemma close_at_not_open : forall c, close_at s t c = true -> open_at s t c = false.
Proof.
  intros c H. unfold close_at in H.
  assert (Hs : nth_error s (S c) = Some "/"%char).
  { apply prefixb_nth with (k := 1) in H; [|simpl; lia].
    rewrite nth_error_skipn_add in H. rewrite Nat.add_1_r in H. exact H. }
  destruct (open_at s t c) eqn:Ho; [exfalso|reflexivity].
  destruct (Nat.eq_dec (length t) 0) as [E0|Hne].
  - unfold open_at in Ho. apply andb_prop in Ho as [_ H3].
    rewrite E0, Nat.add_0_r, Hs in H3. discriminate.
  - pose proof (open_at_nth c Ho 0 ltac:(lia)) as E.
    rewrite Nat.add_0_r, Hs in E. cbn [option_map] in E. apply nth_error_In in E.
    exact (name_not_slash _ E eq_refl).
Qed.

End Counting.

Lemma rawbal_split : forall s t a b c, a <= b <= c ->
  rawbal s t a (c - a) = (rawbal s t a (b - a) + rawbal s t b (c - b))%Z.
Proof.
  intros s t a b c H. replace (c - a) with ((b - a) + (c - b)) by lia.
  rewrite rawbal_app. replace (a + (b - a)) with b by lia. reflexivity.
Qed.

Section Matching.

Variables (s t : text).
Hypothesis Ht : forallb is_name_char t = true.

Lemma rawbal_open_seg : forall p k, open_at s t p = true -> k <= S (length t) ->
  rawbal s t p k = (if Nat.eqb k 0 then 0 else 1)%Z.
Proof.
  intros p [|k] Hp Hk; [reflexivity|]. cbn [rawbal].
  destruct (close_at s t p) eqn:Hc.
  { rewrite (close_at_not_open s t Ht p Hc) in Hp. discriminate. }
  rewrite Hp, rawbal_quiet; [reflexivity|].
  intros q Hq. apply no_lt_open_close.
  replace q with (S p + (q - S p)) by lia. apply (open_at_quiet s t Ht p Hp). lia.
Qed.

Lemma rawbal_close_seg : forall c k, close_at s t c = true ->
  k <= length (closing_tag t) -> rawbal s t c k = (if Nat.eqb k 0 then 0 else -1)%Z.
Proof.
  intros c [|k] Hc Hk; [reflexivity|]. cbn [rawbal].
  rewrite Hc, (close_at_not_open s t Ht c Hc), rawbal_quiet; [reflexivity|].
  intros q Hq. apply no_lt_open_close.
  replace q with (c + (q - c)) by lia. apply (close_at_quiet s t Ht c Hc). lia.
Qed.

(** What the matching loop returns: the end of a closing occurrence [</tagName>]
    at which the raw count, started at [depth] at [searchStart], reaches zero. *)
Lemma match_loop_sound : forall fuel depth ss st st' e,
  match_loop s t st fuel depth ss = Some (st', e) ->
  st' = st /\ exists c, e = c + length (closing_tag t) /\ close_at s t c = true
    /\ ss <= c /\ (Z.of_nat depth - 1 + rawbal s t ss (c - ss) = 0)%Z
    /\ forall q, ss <= q <= c -> (1 <= Z.of_nat depth + rawbal s t ss (q - ss))%Z.
Proof.
  induction fuel as [|f IH]; intros depth ss st st' e H; [discriminate|].
  cbn [match_loop] in H. cbv zeta in H.
  destruct ((0 <? depth) && (ss <? length s)) eqn:Hg; [|discriminate].
  apply andb_prop in Hg as [Hd Hss]. apply Nat.ltb_lt in Hd, Hss.
  destruct (index_of s (closing_tag t) ss) as [c0|] eqn:Hc; [|discriminate].
  unfold index_of in Hc. apply find_from_some in Hc as (Hc0 & Hcl & Hcfirst).
  change (close_at s t c0 = true) in Hcl.
  assert (Hcf : forall q, ss <= q < c0 -> close_at s t q = false) by exact Hcfirst.
  clear Hcfirst.
  set (L := length (closing_tag t)) in *.
  assert (HL : L = length t + 3)
    by (subst L; unfold closing_tag; simpl; rewrite length_app; simpl; lia).
  assert (Hfc : (forall q, ss <= q < c0 -> open_at s t q = false) ->
     (if depth - 1 =? 0 then Some (st, c0 + L)
      else match_loop s t st f (depth - 1) (c0 + L)) = Some (st', e) ->
     st' = st /\ exists c, e = c + L /\ close_at s t c = true
       /\ ss <= c /\ (Z.of_nat depth - 1 + rawbal s t ss (c - ss) = 0)%Z
       /\ forall q, ss <= q <= c -> (1 <= Z.of_nat depth + rawbal s t ss (q - ss))%Z).
  { intros Hno H'.
    assert (Hq0 : forall q, ss <= q <= c0 -> rawbal s t ss (q - ss) = 0%Z).
    { intros q Hq. apply rawbal_quiet. intros q' Hq'.
      split; [apply Hno|apply Hcf]; lia. }
    destruct (Nat.eqb_spec (depth - 1) 0) as [Hd1|Hd1].
    - injection H' as <- <-. split; [reflexivity|]. exists c0.
      repeat split; auto; try lia.
      + rewrite Hq0 by lia. lia.
      + intros q Hq. rewrite Hq0 by lia. lia.
    - apply IH in H' as [-> (c & -> & Hc & Hle & Hbal & Hpre)].
      split; [reflexivity|]. exists c. fold L in Hle, Hbal, Hpre |- *.
      repeat split; auto; try lia.
      + rewrite (rawbal_split s t ss c0 c), (rawbal_split s t c0 (c0 + L) c) by lia.
        rewrite Hq0 by lia. rewrite (rawbal_close_seg c0) by (auto; lia).
        replace (c0 + L - c0 =? 0) with false by (symmetry; apply Nat.eqb_neq; lia).
        lia.
      + intros q Hq. destruct (Nat.le_gt_cases q c0).
        { rewrite Hq0 by lia. lia. }
        rewrite (rawbal_split s t ss c0 q) by lia. rewrite Hq0 by lia.
        destruct (Nat.le_gt_cases q (c0 + L)).
        { rewrite (rawbal_close_seg c0) by (auto; lia).
          replace (q - c0 =? 0) with false by (symmetry; apply Nat.eqb_neq; lia).
          lia. }
        rewrite (rawbal_split s t c0 (c0 + L) q) by lia.
        rewrite (rawbal_close_seg c0) by (auto; lia).
        replace (c0 + L - c0 =? 0) with false by (symmetry; apply Nat.eqb_neq; lia).
        specialize (Hpre q ltac:(lia)). lia. }
  destruct (find_from (open_at s t) ss (length s - ss)) as [p|] eqn:Ho.
  - apply find_from_some in Ho as (Hp0 & Hpo & Hpfirst).
    destruct (Nat.ltb_spec p c0) as [Hpc|Hpc].
    + apply IH in H as [-> (c & -> & Hc & Hle & Hbal & Hpre)].
      split; [reflexivity|]. exists c.
      assert (Hq0 : forall q, ss <= q <= p -> rawbal s t ss (q - ss) = 0%Z).
      { intros q Hq. apply rawbal_quiet. intros q' Hq'.
        split; [apply Hpfirst|apply Hcf]; lia. }
      repeat split; auto; try lia.
      * rewrite (rawbal_split s t ss p c), (rawbal_split s t p (p + length t + 1) c)
          by lia.
        rewrite Hq0 by lia. rewrite (rawbal_open_seg p) by (auto; lia).
        replace (p + length t + 1 - p =? 0) with false
          by (symmetry; apply Nat.eqb_neq; lia).
        lia.
      * intros q Hq. destruct (Nat.le_gt_cases q p).
        { rewrite Hq0 by lia. lia. }
        rewrite (rawbal_split s t ss p q) by lia. rewrite Hq0 by lia.
        destruct (Nat.le_gt_cases q (p + length t + 1)).
        { rewrite (rawbal_open_seg p) by (auto; lia).
          replace (q - p =? 0) with false by (symmetry; apply Nat.eqb_neq; lia).
          lia. }
        rewrite (rawbal_split s t p (p + length t + 1) q) by lia.
        rewrite (rawbal_open_seg p) by (auto; lia).
        replace (p + length t + 1 - p =? 0) with false
          by (symmetry; apply Nat.eqb_neq; lia).
        specialize (Hpre q ltac:(lia)). lia.
    + apply Hfc; [|exact H]. intros q Hq. apply Hpfirst. lia.
  - apply Hfc; [|exact H]. intros q Hq.
    apply (find_from_none _ _ _ Ho). lia.
Qed.

End Matching.

(** ** The anchor search *)

Lemma take_while_all : forall p l, forallb p (take_while p l) = true.
Proof.
  intros p l. induction l as [|x l IH]; simpl; [reflexivity|].
  destruct (p x) eqn:Hx; simpl; [rewrite Hx; exact IH|reflexivity].
Qed.

Lemma is_name_char_lower : forall c, is_name_char c = true ->
  is_name_char (to_lower_char c) = true.
Proof.
  intros c H. unfold to_lower_char. destruct (is_upper c) eqn:Hu; [|exact H].
  unfold is_upper, in_range in Hu. apply andb_prop in Hu as [H1 H2].
  apply Nat.leb_le in H1. apply Nat.leb_le in H2.
  unfold is_name_char, is_letter, is_lower, in_range.
  rewrite nat_ascii_embedding by lia.
  replace (97 <=? nat_of_ascii c + 32) with true by (symmetry; apply Nat.leb_le; lia).
  replace (nat_of_ascii c + 32 <=? 122) with true by (symmetry; apply Nat.leb_le; lia).
  rewrite !orb_true_r. reflexivity.
Qed.

Lemma to_lower_name : forall l, forallb is_name_char l = true ->
  forallb is_name_char (to_lower l) = true.
Proof.
  induction l as [|x l IH]; simpl; intro H; [reflexivity|].
  apply andb_prop in H as [H1 H2]. rewrite is_name_char_lower, IH; auto.
Qed.

Lemma open_tag_match_spec : forall s i name, open_tag_match s i = Some name ->
  is_char s i "<"%char = true /\ forallb is_name_char name = true /\ name <> [].
Proof.
  intros s i name H. unfold open_tag_match in H.
  destruct (skipn i s) as [|c0 [|c1 rest]] eqn:E; try discriminate.
  destruct (Ascii.eqb c0 "<"%char && is_letter c1) eqn:Hc; [|discriminate].
  apply andb_prop in Hc as [Hc0 Hc1]. apply Ascii.eqb_eq in Hc0. subst c0.
  destruct (existsb _ _); [|discriminate]. injection H as <-.
  repeat split; [| |discriminate].
  - apply is_char_nth. rewrite <- (Nat.add_0_r i), <- nth_error_skipn_add, E.
    reflexivity.
  - simpl. unfold is_name_char at 1. rewrite Hc1, take_while_all. reflexivity.
Qed.

Lemma back_search_sound : forall s i st tn, back_search s i = Some (st, tn) ->
  exists name, open_tag_match s st = Some name /\ tn = to_lower name.
Proof.
  intros s i. induction i as [|j IH]; intros st tn H; simpl in H;
  destruct (back_body s _) as [st' tn'| |] eqn:Hb; try discriminate; auto.
  all: injection H as <- <-; unfold back_body in Hb; cbv zeta in Hb.
  all: destruct (_ && _) eqn:H1 in Hb;
       [destruct (_ || _) in Hb;
        [discriminate|destruct (open_tag_match s _) as [name|] eqn:Hm in Hb]|].
  all: try (injection Hb as <- <-; eauto).
  all: destruct (_ && _ && _) in Hb; try discriminate;
       destruct (is_char _ _ _) in Hb; discriminate.
Qed.

Lemma forward_search_sound : forall s n i st tn, forward_search s i n = Some (st, tn) ->
  exists name, open_tag_match s st = Some name /\ tn = to_lower name.
Proof.
  intros s n. induction n as [|n IH]; intros i st tn H; simpl in H; [discriminate|].
  destruct (opening_candidate s i) as [st' tn'| |] eqn:Hb; eauto.
  injection H as <- <-. unfold opening_candidate in Hb.
  destruct (_ && _) in Hb; [|discriminate].
  destruct (_ || _) in Hb; [discriminate|].
  destruct (open_tag_match s i) as [name|] eqn:Hm; [|discriminate].
  injection Hb as <- <-. eauto.
Qed.

Lemma find_anchor_sound : forall s off st tn, find_anchor s off = Some (st, tn) ->
  exists name, open_tag_match s st = Some name /\ tn = to_lower name.
Proof.
  intros s off st tn H. unfold find_anchor in H.
  destruct (back_search s off) as [[st' tn']|] eqn:Hb.
  - injection H as <- <-. eapply back_search_sound; eauto.
  - eapply forward_search_sound; eauto.
Qed.

Lemma index_of_gt_spec : forall s i oe, index_of s (str ">") i = Some oe ->
  i <= oe < length s.
Proof.
  intros s i oe H. unfold index_of in H. apply find_from_some in H as (H & Hp & _).
  assert (oe < length s).
  { simpl in Hp. destruct (skipn oe s) as [|c r] eqn:E; [discriminate|].
    assert (Hn : nth_error (skipn oe s) 0 = Some c) by (rewrite E; reflexivity).
    rewrite nth_error_skipn_add, Nat.add_0_r in Hn. apply nth_error_Some. congruence. }
  lia.
Qed.

(** Checking a property of every offset of a finite range by evaluation. *)
Lemma check_offsets : forall (P : nat -> bool) a n,
  forallb P (seq a n) = true -> forall x, a <= x < a + n -> P x = true.
Proof.
  intros P a n H x Hx. rewrite forallb_forall in H. apply H, in_seq. lia.
Qed.

Lemma range_eqb_eq : forall r1 r2, range_eqb r1 r2 = true -> r1 = r2.
Proof.
  intros [[a b]|] [[c d]|] H; simpl in H; try discriminate; auto.
  apply andb_prop in H as [H1 H2]. apply Nat.eqb_eq in H1, H2. subst. reflexivity.
Qed.

Example nested_divs_length : length nested_divs = 45.
Proof. reflexivity. Qed.

(** * Claims about the element-range locator *)

(** C1 (as amended): in [<div id="outer"><div id="inner">x</div></div>], an
    offset on either side of the text [x] (32 or 33) gives the inner div
    [16, 39); the offset right after the outer opening tag (16) is the [<] of
    the inner opening tag, and the backward search, which starts at the offset
    itself, anchors there: it also gives the inner div [16, 39); offsets inside
    the outer opening tag (0 to 15) give the whole outer element [0, 45). *)
Theorem nested_divs_located :
  (forall off, 32 <= off <= 33 -> findCompleteHtmlElement nested_divs off = Some (16, 39))
  /\ findCompleteHtmlElement nested_divs 16 = Some (16, 39)
  /\ (forall off, off <= 15 -> findCompleteHtmlElement nested_divs off = Some (0, 45)).
Proof.
  split; [|split].
  - intros off Hoff. apply range_eqb_eq.
    apply (check_offsets (fun o => range_eqb (findCompleteHtmlElement nested_divs o)
                                     (Some (16, 39))) 32 2); [vm_compute; reflexivity|lia].
  - vm_compute. reflexivity.
  - intros off Hoff. apply range_eqb_eq.
    apply (check_offsets (fun o => range_eqb (findCompleteHtmlElement nested_divs o)
                                     (Some (0, 45))) 0 16); [vm_compute; reflexivity|lia].
Qed.

Lemma nested_divs_located_witness :
  32 <= 32 <= 33 /\ findCompleteHtmlElement nested_divs 32 = Some (16, 39).
Proof.
  split; [lia|]. exact (proj1 nested_divs_located 32 ltac:(lia)).
Defined.

(** C1 (as stated) fails: with the offset immediately after [<div id="outer">]
    (offset 16) the result is the inner div, not the outer element [0, 45). *)
Lemma nested_divs_outer_offset_counterexample :
  ~ (findCompleteHtmlElement nested_divs 32 = Some (16, 39)
     /\ findCompleteHtmlElement nested_divs 16 = Some (0, 45)).
Proof.
  intros [_ H]. vm_compute in H. discriminate.
Qed.

(** C2: when the anchor opening tag is neither self-closing nor void and no
    closing [</tagName>] brings the raw same-name depth counter (started at 1
    after the opening tag) to zero, the result is [null]; in particular every
    offset of the text [<div id="x">] gives [null]. *)
Theorem unterminated_element_not_found :
  (forall s off st tn oe,
     find_anchor s off = Some (st, tn) ->
     index_of s (str ">") st = Some oe ->
     ends_with (str "/>") (substring s st (oe + 1)) = false ->
     is_void tn = false ->
     (forall c, ~ closes_to_zero s tn (oe + 1) c) ->
     findCompleteHtmlElement s off = None)
  /\ (forall off, findCompleteHtmlElement unterminated_div off = None).
Proof.
  split.
  - intros s off st tn oe Ha Hoe Hsc Hv Hno. unfold findCompleteHtmlElement.
    rewrite Ha, Hoe, Hsc, Hv.
    destruct (match_loop s tn st (length s) 1 (oe + 1)) as [[st' e]|] eqn:Hm;
      [exfalso|reflexivity].
    apply find_anchor_sound in Ha as (name & Hname & ->).
    apply open_tag_match_spec in Hname as (_ & Hn & _).
    apply match_loop_sound in Hm as [_ (c & _ & Hc & Hle & Hbal & Hpre)];
      [|apply to_lower_name; exact Hn].
    apply (Hno c). refine (conj Hc (conj Hle (conj _ _))); [lia|].
    intros q Hq. specialize (Hpre q Hq). lia.
  - intros off. unfold findCompleteHtmlElement.
    destruct (find_anchor unterminated_div off) as [[st tn]|] eqn:Ha; [|reflexivity].
    apply find_anchor_sound in Ha as (name & Hname & ->).
    pose proof (open_tag_match_spec _ _ _ Hname) as (Hlt & _).
    assert (st = 0) as ->.
    { destruct (Nat.lt_ge_cases st (length unterminated_div)) as [Hst|Hst].
      - pose proof (check_offsets (fun i => negb (is_char unterminated_div i "<"%char)
                                            || (i =? 0)) 0 12 ltac:(vm_compute; reflexivity)
                      st ltac:(vm_compute in Hst; lia)) as Hc.
        cbv beta in Hc. rewrite Hlt in Hc. apply Nat.eqb_eq in Hc. exact Hc.
      - unfold is_char in Hlt. rewrite (proj2 (nth_error_None _ _) Hst) in Hlt.
        discriminate. }
    vm_compute in Hname. injection Hname as <-. vm_compute. reflexivity.
Qed.

Lemma unterminated_element_not_found_witness :
  find_anchor unterminated_div 0 = Some (0, str "div") /\
  findCompleteHtmlElement unterminated_div 0 = None.
Proof.
  split; [vm_compute; reflexivity|].
  apply (proj1 unterminated_element_not_found unterminated_div 0 0 (str "div") 11);
    [vm_compute; reflexivity|vm_compute; reflexivity|vm_compute; reflexivity
    |vm_compute; reflexivity|].
  intros c [Hc _]. destruct (Nat.lt_ge_cases c 12) as [Hlt|Hge].
  - assert (Hf : negb (close_at unterminated_div (str "div") c) = true).
    { apply (check_offsets (fun o => negb (close_at unterminated_div (str "div") o)) 0 12);
        [vm_compute; reflexivity|lia]. }
    rewrite Hc in Hf. discriminate.
  - unfold close_at in Hc. rewrite skipn_all2 in Hc by exact Hge. discriminate.
Defined.

(** C3 (code defect): in [<!-- <div id="x"></div> -->], every offset from 0 to
    21 (from the start of the comment to the last character before the [>] of
    the commented [</div>]) locates the commented-out div [5, 23): only the
    [<] of [<!--] itself is skipped. *)
Theorem commented_div_is_located :
  forall off, off <= 21 -> findCompleteHtmlElement commented_div off = Some (5, 23).
Proof.
  intros off Hoff. apply range_eqb_eq.
  apply (check_offsets (fun o => range_eqb (findCompleteHtmlElement commented_div o)
                                   (Some (5, 23))) 0 22); [vm_compute; reflexivity|lia].
Qed.

Lemma commented_div_is_located_witness :
  6 <= 21 /\ findCompleteHtmlElement commented_div 6 = Some (5, 23).
Proof.
  split; [lia|]. apply (commented_div_is_located 6). lia.
Defined.

Lemma back_body_plain : forall s q,
  is_char s q "<"%char = false -> is_char s q ">"%char = false -> back_body s q = Continue.
Proof.
  intros s q H1 H2. unfold back_body. rewrite H1, H2. reflexivity.
Qed.

(** C10: an offset inside a closing tag [</...>] (from its [<] up to the
    character before its [>], with no [<] or [>] in between) does not stop the
    backward search: every index down to the [<] of the closing tag is passed
    over, and the search goes on at the index before it; in [<div>x</div>]
    every offset on [</div] gives the whole element [0, 12). *)
Theorem closing_tag_passed_over :
  (forall s c g off,
     is_char s c "<"%char = true -> is_char s (S c) "/"%char = true ->
     is_char s g ">"%char = true -> S c < g -> c <= off < g ->
     (forall q, c < q < g -> is_char s q "<"%char = false /\ is_char s q ">"%char = false) ->
     back_search s off = match c with 0 => None | S j => back_search s j end)
  /\ (forall off, 6 <= off <= 10 -> findCompleteHtmlElement div_x off = Some (0, 12)).
Proof.
  split.
  - intros s c g off Hc Hs Hg Hcg Hoff Hin.
    assert (Hlen : g < length s).
    { apply is_char_nth in Hg. apply nth_error_Some. congruence. }
    assert (Hat : back_search s c = match c with 0 => None | S j => back_search s j end).
    { assert (Hb : back_body s c = Continue).
      { unfold back_body. rewrite Hc. replace (c + 1) with (S c) by lia.
        rewrite Hs, orb_true_r.
        replace (c <? length s - 1) with true by (symmetry; apply Nat.ltb_lt; lia).
        reflexivity. }
      destruct c; cbn [back_search]; rewrite Hb; reflexivity. }
    rewrite <- Hat. clear Hat.
    replace off with (c + (off - c)) by lia.
    assert (Hk : c + (off - c) < g) by lia. revert Hk.
    generalize (off - c) as k. induction k as [|k IH]; intro Hk.
    + rewrite Nat.add_0_r. reflexivity.
    + destruct (Hin (c + S k) ltac:(lia)) as [H1 H2].
      replace (c + S k) with (S (c + k)) in * by lia.
      cbn [back_search]. rewrite (back_body_plain s (S (c + k)) H1 H2). apply IH. lia.
  - intros off Hoff. apply range_eqb_eq.
    apply (check_offsets (fun o => range_eqb (findCompleteHtmlElement div_x o)
                                     (Some (0, 12))) 6 5); [vm_compute; reflexivity|lia].
Qed.

Lemma closing_tag_passed_over_witness :
  6 <= 8 <= 10 /\ findCompleteHtmlElement div_x 8 = Some (0, 12).
Proof.
  split; [lia|]. exact (proj2 closing_tag_passed_over 8 ltac:(lia)).
Defined.

(** C4 (as amended): a returned range [start, end) has [start < end <= length];
    [start] is the [<] of an opening tag matching [<[a-zA-Z][a-zA-Z0-9-]*[^>]*>];
    either that tag ends with [/>] or is void and [end] is one past its first
    [>], or [end] is the end of a raw [</tagName>] at which the raw same-name
    count (+1 per [<tagName] followed by whitespace or [>], -1 per [</tagName>],
    from 1 after the opening tag) first reaches zero. *)
Theorem findCompleteHtmlElement_range : forall s off st e,
  findCompleteHtmlElement s off = Some (st, e) ->
  st < e <= length s /\
  exists name oe, open_tag_match s st = Some name /\ index_of s (str ">") st = Some oe /\
    ((e = oe + 1 /\ (ends_with (str "/>") (substring s st (oe + 1)) = true
                     \/ is_void (to_lower name) = true))
     \/ (ends_with (str "/>") (substring s st (oe + 1)) = false
         /\ is_void (to_lower name) = false
         /\ exists c, e = c + length (closing_tag (to_lower name))
                      /\ closes_to_zero s (to_lower name) (oe + 1) c)).
Proof.
  intros s off st e H. unfold findCompleteHtmlElement in H.
  destruct (find_anchor s off) as [[st0 tn]|] eqn:Ha; [|discriminate].
  apply find_anchor_sound in Ha as (name & Hname & ->).
  destruct (index_of s (str ">") st0) as [oe|] eqn:Hoe; [|discriminate].
  pose proof (index_of_gt_spec _ _ _ Hoe) as Hoe'.
  destruct (ends_with (str "/>") (substring s st0 (oe + 1))) eqn:Hsc.
  { injection H as <- <-. split; [lia|]. exists name, oe.
    split; [exact Hname|split; [exact Hoe|left; split; auto]]. }
  destruct (is_void (to_lower name)) eqn:Hv.
  { injection H as <- <-. split; [lia|]. exists name, oe.
    split; [exact Hname|split; [exact Hoe|left; split; auto]]. }
  pose proof (open_tag_match_spec _ _ _ Hname) as (_ & Hn & _).
  apply match_loop_sound in H as [<- (c & -> & Hc & Hle & Hbal & Hpre)];
    [|apply to_lower_name; exact Hn].
  pose proof (close_at_fits _ _ _ Hc).
  split; [lia|]. exists name, oe. split; [exact Hname|]. split; [exact Hoe|].
  right. split; [exact Hsc|]. split; [exact Hv|]. exists c. split; [reflexivity|].
  refine (conj Hc (conj Hle (conj _ _))); [lia|].
  intros q Hq. specialize (Hpre q Hq). lia.
Qed.

Lemma findCompleteHtmlElement_range_witness :
  findCompleteHtmlElement nested_divs 0 = Some (0, 45) /\ 0 < 45 <= length nested_divs.
Proof.
  split; [vm_compute; reflexivity|].
  exact (proj1 (findCompleteHtmlElement_range nested_divs 0 0 45
                  ltac:(vm_compute; reflexivity))).
Defined.


(** * The tree builder *)

(** ** Store updates *)

Lemma nth_update_at : forall {A} (l : list A) i k f d,
  nth k (update_at l i f) d =
  if (k =? i) && (i <? length l) then f (nth k l d) else nth k l d.
Proof.
  intros A l. induction l as [|x l IH]; intros i k f d; simpl.
  - destruct k, i; simpl; rewrite ?andb_false_r; reflexivity.
  - destruct i as [|i], k as [|k]; simpl; try reflexivity.
    rewrite IH. reflexivity.
Qed.

Lemma length_update_at : forall {A} (l : list A) i f, length (update_at l i f) = length l.
Proof.
  intros A l. induction l as [|x l IH]; intros [|i] f; simpl; auto.
Qed.

Lemma lookup_app_lt : forall h e k, k < length h -> lookup (h ++ [e]) k = lookup h k.
Proof. intros. unfold lookup. rewrite app_nth1; auto. Qed.

Lemma lookup_app_eq : forall h e, lookup (h ++ [e]) (length h) = e.
Proof. intros. unfold lookup. rewrite app_nth2, Nat.sub_diag by lia. reflexivity. Qed.

Lemma lookup_ge : forall h k, length h <= k -> lookup h k = default_dependency.
Proof. intros. unfold lookup. apply nth_overflow. auto. Qed.

Lemma ch_app_neq : forall h e k, k <> length h -> ch (h ++ [e]) k = ch h k.
Proof.
  intros h e k Hk. unfold ch. destruct (Nat.lt_ge_cases k (length h)).
  - rewrite lookup_app_lt; auto.
  - rewrite !lookup_ge; auto. rewrite length_app. simpl. lia.
Qed.

Lemma nth_ops_app : forall (ops : list TagMatch) m k, k < length ops ->
  nth k (ops ++ [m]) no_match = nth k ops no_match.
Proof. intros. apply app_nth1. auto. Qed.

Lemma nth_ops_last : forall (ops : list TagMatch) m, nth (length ops) (ops ++ [m]) no_match = m.
Proof. intros. rewrite app_nth2, Nat.sub_diag by lia. reflexivity. Qed.

Lemma children_attach : forall d n,
  children (updateCollapsibleState (push_child n d)) = children d ++ [n].
Proof.
  intros d n. unfold updateCollapsibleState, push_child. simpl.
  destruct (children d ++ [n]); reflexivity.
Qed.

Lemma tagName_attach : forall d n,
  tagName (updateCollapsibleState (push_child n d)) = tagName d.
Proof.
  intros d n. unfold updateCollapsibleState, push_child. simpl.
  destruct (children d ++ [n]); reflexivity.
Qed.

Lemma length_attach : forall h p e, length (attach h p e) = S (length h).
Proof.
  intros. unfold attach. rewrite length_update_at, length_app. simpl. lia.
Qed.

Lemma lookup_attach : forall h p e k,
  lookup (attach h p e) k =
  if (k =? p) && (p <? S (length h))
  then updateCollapsibleState (push_child (length h) (lookup (h ++ [e]) k))
  else lookup (h ++ [e]) k.
Proof.
  intros. unfold attach, lookup. rewrite nth_update_at, length_app.
  simpl. rewrite Nat.add_1_r. reflexivity.
Qed.

Lemma ch_attach_p : forall h p e, p < length h ->
  ch (attach h p e) p = ch h p ++ [length h].
Proof.
  intros h p e Hp. unfold ch. rewrite lookup_attach, Nat.eqb_refl.
  replace (p <? S (length h)) with true by (symmetry; apply Nat.ltb_lt; lia).
  simpl. rewrite children_attach, lookup_app_lt; auto.
Qed.

Lemma ch_attach_other : forall h p e k, k <> p ->
  ch (attach h p e) k = ch (h ++ [e]) k.
Proof.
  intros h p e k Hk. unfold ch. rewrite lookup_attach.
  apply Nat.eqb_neq in Hk. rewrite Hk. reflexivity.
Qed.

Lemma tagName_lookup_attach : forall h p e k,
  tagName (lookup (attach h p e) k) = tagName (lookup (h ++ [e]) k).
Proof.
  intros. rewrite lookup_attach. destruct (_ && _); auto using tagName_attach.
Qed.

(** ** Walking the store *)

Lemma flat_map_ext_in' : forall {A B} (f g : A -> list B) l,
  (forall a, In a l -> f a = g a) -> flat_map f l = flat_map g l.
Proof.
  intros A B f g l H. induction l as [|x l IH]; simpl; auto.
  rewrite H, IH; auto with datatypes.
Qed.

Lemma pre_S : forall h g d i,
  pre h (S g) d i = (i, d) :: flat_map (pre h g (S d)) (ch h i).
Proof. reflexivity. Qed.

Lemma pre_leaf : forall h f d i, ch h i = [] -> pre h f d i = [(i, d)].
Proof. intros h [|f] d i H; simpl; rewrite ?H; reflexivity. Qed.

Lemma pre_frame : forall h h' f d i,
  (forall j, In j (map fst (pre h f d i)) -> ch h' j = ch h j) ->
  pre h' f d i = pre h f d i.
Proof.
  intros h h'. induction f as [|f IH]; intros d i H; [reflexivity|].
  simpl. rewrite (H i) by (left; reflexivity). f_equal.
  assert (Hv : forall j, In j (map fst (flat_map (pre h f (S d)) (ch h i))) ->
                         ch h' j = ch h j) by (intros j Hj; apply H; right; exact Hj).
  clear H. induction (ch h i) as [|x l IHl]; simpl; auto.
  simpl in Hv. rewrite map_app in Hv.
  rewrite IH, IHl; auto; intros j Hj; apply Hv; apply in_or_app; auto.
Qed.

Lemma pres_frame : forall h h' f d ids,
  (forall j, In j (map fst (flat_map (pre h f d) ids)) -> ch h' j = ch h j) ->
  flat_map (pre h' f d) ids = flat_map (pre h f d) ids.
Proof.
  intros h h' f d ids. induction ids as [|x l IH]; simpl; intro H; auto.
  rewrite map_app in H.
  rewrite (pre_frame h h'), IH; auto; intros j Hj; apply H; apply in_or_app; auto.
Qed.

Section Fuel.

Variables (h : list Dependency) (M : nat).
Hypothesis Hscope : forall j c, In c (ch h j) -> j < c < M.

Lemma pre_fuel : forall f1 f2 d i, i < M -> M - i <= f1 -> M - i <= f2 ->
  pre h f1 d i = pre h f2 d i.
Proof.
  induction f1 as [|f1 IH]; intros f2 d i Hi H1 H2; [lia|].
  destruct f2 as [|f2]; [lia|]. simpl. f_equal.
  apply flat_map_ext_in'. intros c Hc. apply Hscope in Hc. apply IH; lia.
Qed.

Lemma pres_fuel : forall f1 f2 d ids, (forall r, In r ids -> r < M) ->
  M <= f1 -> M <= f2 ->
  flat_map (pre h f1 d) ids = flat_map (pre h f2 d) ids.
Proof.
  intros f1 f2 d ids Hr H1 H2. apply flat_map_ext_in'. intros r Hin.
  specialize (Hr r Hin). apply pre_fuel; lia.
Qed.

End Fuel.

Lemma NoDup_app_disjoint : forall {A} (l1 l2 : list A) x,
  NoDup (l1 ++ l2) -> In x l1 -> In x l2 -> False.
Proof.
  intros A l1. induction l1 as [|y l1 IH]; intros l2 x Hn H1 H2; [destruct H1|].
  inversion Hn as [|? ? Hy Hn']. subst. destruct H1 as [->|H1].
  - apply Hy. apply in_or_app. right. exact H2.
  - exact (IH l2 x Hn' H1 H2).
Qed.

Lemma visited_last : forall h g d ids0 x,
  map fst (flat_map (pre h (S g) d) (ids0 ++ [x])) =
  map fst (flat_map (pre h (S g) d) ids0)
    ++ x :: map fst (flat_map (pre h g (S d)) (ch h x)).
Proof.
  intros. rewrite flat_map_app, map_app. simpl. rewrite app_nil_r. reflexivity.
Qed.

Lemma path_ok_prefix : forall h l1 l2 ids, path_ok h ids (l1 ++ l2) -> path_ok h ids l1.
Proof.
  intros h l1. induction l1 as [|x l1 IH]; intros l2 ids H; simpl in *; auto.
  destruct H as [H1 H2]. split; eauto.
Qed.

Lemma path_visited : forall h path ids F d, path_ok h ids path -> length path <= F ->
  forall x, In x path -> In x (map fst (flat_map (pre h F d) ids)).
Proof.
  intros h path. induction path as [|y rest IH]; intros ids F d Hp HF x Hx;
    [destruct Hx|].
  destruct Hp as [[ids0 ->] Hp]. simpl in HF. destruct F as [|g]; [lia|].
  rewrite visited_last. apply in_or_app. right.
  destruct Hx as [->|Hx]; [left; reflexivity|]. right.
  apply (IH (ch h y) g (S d)); auto. lia.
Qed.

Section Attach.

Variables (h h' : list Dependency) (p N : nat).
Hypothesis Hp : ch h' p = ch h p ++ [N].
Hypothesis HN : ch h' N = [].
Hypothesis Hother : forall j, j <> p -> j <> N -> ch h' j = ch h j.

(** Appending a last child to the end of the last-child path appends it to
    the walk. *)
Lemma pres_attach : forall path d ids F,
  path_ok h ids (path ++ [p]) -> length path < F ->
  NoDup (map fst (flat_map (pre h F d) ids)) ->
  ~ In N (map fst (flat_map (pre h F d) ids)) ->
  flat_map (pre h' F d) ids = flat_map (pre h F d) ids ++ [(N, d + S (length path))].
Proof.
  induction path as [|x rest IH]; intros d ids F Hpath HF Hnd HnN.
  - destruct Hpath as [[ids0 ->] _]. destruct F as [|g]; [simpl in HF; lia|].
    rewrite visited_last in Hnd, HnN.
    assert (Hp0 : ~ In p (map fst (flat_map (pre h (S g) d) ids0))).
    { intro Hin. apply (NoDup_app_disjoint _ _ p Hnd Hin). left. reflexivity. }
    apply NoDup_app_remove_l in Hnd. inversion Hnd as [|? ? Hp1 _]. subst.
    rewrite !flat_map_app. cbn [flat_map]. rewrite !app_nil_r, !pre_S.
    rewrite Hp, flat_map_app. cbn [flat_map]. rewrite (pre_leaf h' g (S d) N HN).
    rewrite (pres_frame h h' g (S d) (ch h p)).
    2:{ intros j Hj. apply Hother.
        - intros ->. exact (Hp1 Hj).
        - intros ->. apply HnN. apply in_or_app. right. right. exact Hj. }
    rewrite (pres_frame h h' (S g) d ids0).
    2:{ intros j Hj. apply Hother.
        - intros ->. exact (Hp0 Hj).
        - intros ->. apply HnN. apply in_or_app. left. exact Hj. }
    rewrite Nat.add_1_r, app_nil_r, <- app_assoc. reflexivity.
  - destruct Hpath as [[ids0 ->] Hpath]. destruct F as [|g]; [simpl in HF; lia|].
    simpl in HF.
    assert (Hpv : In p (map fst (flat_map (pre h g (S d)) (ch h x)))).
    { apply (path_visited h (rest ++ [p])); auto.
      - rewrite length_app. simpl. lia.
      - apply in_or_app. right. left. reflexivity. }
    rewrite visited_last in Hnd, HnN.
    assert (Hp0 : ~ In p (map fst (flat_map (pre h (S g) d) ids0))).
    { intro Hin. apply (NoDup_app_disjoint _ _ p Hnd Hin). right. exact Hpv. }
    assert (HnN0 : ~ In N (map fst (flat_map (pre h (S g) d) ids0)))
      by (intro; apply HnN; apply in_or_app; auto).
    assert (HnN1 : ~ In N (x :: map fst (flat_map (pre h g (S d)) (ch h x))))
      by (intro; apply HnN; apply in_or_app; auto).
    apply NoDup_app_remove_l in Hnd. inversion Hnd as [|? ? Hx1 Hnd1]. subst.
    assert (Hxp : x <> p) by (intros ->; exact (Hx1 Hpv)).
    assert (HxN : x <> N) by (intros ->; apply HnN1; left; reflexivity).
    rewrite !flat_map_app. cbn [flat_map]. rewrite !app_nil_r, !pre_S.
    rewrite (Hother x Hxp HxN).
    rewrite (IH (S d) (ch h x) g Hpath ltac:(lia) Hnd1
               ltac:(intro; apply HnN1; right; auto)).
    rewrite (pres_frame h h' (S g) d ids0).
    2:{ intros j Hj. apply Hother.
        - intros ->. exact (Hp0 Hj).
        - intros ->. exact (HnN0 Hj). }
    rewrite <- app_assoc. simpl. repeat f_equal. lia.
Qed.

Lemma path_attach : forall path d ids F,
  path_ok h ids (path ++ [p]) -> length path < F ->
  NoDup (map fst (flat_map (pre h F d) ids)) ->
  ~ In N (map fst (flat_map (pre h F d) ids)) ->
  path_ok h' ids (path ++ [p; N]).
Proof.
  induction path as [|x rest IH]; intros d ids F Hpath HF Hnd HnN.
  - destruct Hpath as [Hids _]. simpl. split; [exact Hids|]. split; [|exact I].
    exists (ch h p). exact Hp.
  - destruct Hpath as [[ids0 ->] Hpath]. destruct F as [|g]; [simpl in HF; lia|].
    simpl in HF.
    assert (Hpv : In p (map fst (flat_map (pre h g (S d)) (ch h x)))).
    { apply (path_visited h (rest ++ [p])); auto.
      - rewrite length_app. simpl. lia.
      - apply in_or_app. right. left. reflexivity. }
    rewrite visited_last in Hnd, HnN.
    assert (HnN1 : ~ In N (x :: map fst (flat_map (pre h g (S d)) (ch h x))))
      by (intro; apply HnN; apply in_or_app; auto).
    apply NoDup_app_remove_l in Hnd. inversion Hnd as [|? ? Hx1 Hnd1]. subst.
    assert (Hxp : x <> p) by (intros ->; exact (Hx1 Hpv)).
    assert (HxN : x <> N) by (intros ->; apply HnN1; left; reflexivity).
    simpl. split; [eauto|]. rewrite (Hother x Hxp HxN).
    apply (IH (S d) (ch h x) g); auto; [lia|]. intro; apply HnN1; right; auto.
Qed.

End Attach.

(** ** The invariant of the tree builder's loop *)

Lemma map_fst_combine' : forall {A B} (l1 : list A) (l2 : list B),
  length l1 = length l2 -> map fst (combine l1 l2) = l1.
Proof.
  intros A B l1. induction l1 as [|x l1 IH]; intros [|y l2] H; simpl in *;
    try discriminate; auto.
  rewrite IH; auto.
Qed.

Lemma combine_app' : forall {A B} (a c : list A) (b d : list B),
  length a = length b -> combine (a ++ c) (b ++ d) = combine a b ++ combine c d.
Proof.
  intros A B a. induction a as [|x a IH]; intros c [|y b] d H; simpl in *;
    try discriminate; auto.
  rewrite IH; auto.
Qed.

Lemma make_element_children : forall m, children (make_element m) = [].
Proof. reflexivity. Qed.

Lemma make_element_tagName : forall m, tagName (make_element m) = to_lower (m_name m).
Proof. reflexivity. Qed.

Lemma tb_inv_init : tb_inv [] [] init_state.
Proof.
  unfold tb_inv. simpl. repeat split; intros; try lia; try contradiction.
  unfold ch, lookup in H. destruct j; simpl in H; contradiction.
  unfold ch, lookup in H. destruct j; simpl in H; contradiction.
Qed.

Lemma step_inv : forall ops ds st m, tb_inv ops ds st ->
  tb_inv (ops ++ (if is_skipped m || isClosingTag m then [] else [m]))
         (ds ++ (if is_skipped m || isClosingTag m then [] else [length (stack st)]))
         (step st m).
Proof.
  intros ops ds [h Sk R] m H. unfold step. cbn [store stack roots].
  destruct (is_skipped m) eqn:Hsk; simpl orb.
  { rewrite !app_nil_r. exact H. }
  destruct (isClosingTag m) eqn:Hcl.
  { rewrite !app_nil_r. destruct Sk as [|top rest]; [exact H|].
    destruct (text_eqb _ _); [|exact H].
    unfold tb_inv in *. cbn [store stack roots] in *.
    destruct H as (Hops & Hds & Hsc & Hr & Hpre & Hpath & Hst & Hlen & Htag & Hleaf).
    simpl in Hpath, Hlen. apply path_ok_prefix in Hpath.
    refine (conj Hops (conj Hds (conj Hsc (conj Hr (conj Hpre (conj Hpath
              (conj _ (conj _ (conj Htag Hleaf))))))))).
    - intros x Hx. apply Hst. right. exact Hx.
    - lia. }
  unfold tb_inv in H. cbn [store stack roots] in H.
  destruct H as (Hops & Hds & Hsc & Hr & Hpre & Hpath & Hst & Hlen & Htag & Hleaf).
  set (N := length h) in *. set (e := make_element m).
  assert (HeN : ch (h ++ [e]) N = []).
  { unfold ch. unfold N. rewrite lookup_app_eq. reflexivity. }
  assert (Hvis : map fst (flat_map (pre h (S N) 0) R) = seq 0 N).
  { rewrite (pres_fuel h N Hsc (S N) N 0 R Hr) by lia.
    rewrite Hpre. apply map_fst_combine'. rewrite length_seq. auto. }
  assert (Htag1 : forall k, k < S N ->
            tagName (lookup (h ++ [e]) k) = to_lower (m_name (nth k (ops ++ [m]) no_match))).
  { intros k Hk. destruct (Nat.eq_dec k N) as [->|Hne].
    - unfold N at 1. rewrite lookup_app_eq, <- Hops, nth_ops_last. reflexivity.
    - rewrite lookup_app_lt, nth_ops_app by (unfold N in *; lia). apply Htag. lia. }
  destruct Sk as [|p S'].
  - (* no open element: a new root *)
    unfold tb_inv. cbn zeta. cbn [store stack roots].
    assert (Hlen1 : length (h ++ [e]) = S N) by (rewrite length_app; simpl; unfold N; lia).
    rewrite Hlen1.
    refine (conj _ (conj _ (conj _ (conj _ (conj _ (conj _ (conj _ (conj _ (conj _ _))))))))).
    + rewrite length_app. simpl. lia.
    + rewrite length_app. simpl. lia.
    + intros j c Hc. destruct (Nat.eq_dec j N) as [->|Hne].
      * rewrite HeN in Hc. destruct Hc.
      * rewrite ch_app_neq in Hc by exact Hne. apply Hsc in Hc. lia.
    + intros r Hin. apply in_app_or in Hin as [Hin|[<-|[]]]; [apply Hr in Hin|]; lia.
    + rewrite flat_map_app. cbn [flat_map]. rewrite (pre_leaf _ _ _ _ HeN).
      rewrite (pres_frame h (h ++ [e])).
      2:{ intros j Hj. rewrite Hvis, in_seq in Hj. apply ch_app_neq. unfold N in Hj. lia. }
      rewrite (pres_fuel h N Hsc (S N) N 0 R Hr) by lia.
      rewrite Hpre, seq_S, combine_app' by (rewrite length_seq; auto). reflexivity.
    + destruct (negb (isSelfClosing m)); simpl; auto. split; [exists R; reflexivity|exact I].
    + intros x Hx. destruct (negb (isSelfClosing m)) eqn:Hn; simpl in Hx;
        [destruct Hx as [<-|[]]|destruct Hx]. split; [lia|]. rewrite <- Hops, nth_ops_last.
      apply negb_true_iff. exact Hn.
    + destruct (negb (isSelfClosing m)); simpl; lia.
    + exact Htag1.
    + intros k Hk Hs. destruct (Nat.eq_dec k N) as [->|Hne]; [exact HeN|].
      rewrite ch_app_neq by exact Hne. rewrite nth_ops_app in Hs by (unfold N in *; lia).
      apply Hleaf; auto. lia.
  - (* the new item is the last child of the top of the stack *)
    assert (HpN : p < N) by (apply (Hst p); left; reflexivity).
    change (update_at (h ++ [e]) p
              (fun d => updateCollapsibleState (push_child N d)))
      with (attach h p e).
    set (h1 := attach h p e).
    assert (Hchp : ch h1 p = ch h p ++ [N]) by (apply ch_attach_p; exact HpN).
    assert (HchN : ch h1 N = []).
    { unfold h1. rewrite ch_attach_other by lia. exact HeN. }
    assert (Hcho : forall j, j <> p -> j <> N -> ch h1 j = ch h j).
    { intros j H1 H2. unfold h1. rewrite ch_attach_other by exact H1.
      apply ch_app_neq. exact H2. }
    assert (Hnd : NoDup (map fst (flat_map (pre h (S N) 0) R)))
      by (rewrite Hvis; apply seq_NoDup).
    assert (HnN : ~ In N (map fst (flat_map (pre h (S N) 0) R)))
      by (rewrite Hvis, in_seq; lia).
    simpl in Hpath, Hlen.
    assert (Hlen' : length (rev S') < S N) by (rewrite length_rev; lia).
    pose proof (path_attach h h1 p N Hchp Hcho (rev S') 0 R (S N) Hpath Hlen' Hnd HnN)
      as Hpath1.
    unfold tb_inv. cbn zeta. cbn [store stack roots].
    assert (Hlen1 : length h1 = S N) by (apply length_attach).
    rewrite Hlen1.
    refine (conj _ (conj _ (conj _ (conj _ (conj _ (conj _ (conj _ (conj _ (conj _ _))))))))).
    + rewrite length_app. simpl. lia.
    + rewrite length_app. simpl. lia.
    + intros j c Hc. destruct (Nat.eq_dec j p) as [->|Hp].
      * rewrite Hchp in Hc. apply in_app_or in Hc as [Hc|[<-|[]]]; [apply Hsc in Hc|]; lia.
      * destruct (Nat.eq_dec j N) as [->|HN]; [rewrite HchN in Hc; destruct Hc|].
        rewrite Hcho in Hc by auto. apply Hsc in Hc. lia.
    + intros r Hin. apply Hr in Hin. lia.
    + rewrite (pres_attach h h1 p N Hchp HchN Hcho (rev S') 0 R (S N) Hpath Hlen' Hnd HnN).
      rewrite (pres_fuel h N Hsc (S N) N 0 R Hr) by lia.
      rewrite Hpre, seq_S, combine_app' by (rewrite length_seq; auto).
      rewrite length_rev. reflexivity.
    + destruct (negb (isSelfClosing m)); simpl.
      * rewrite <- app_assoc. exact Hpath1.
      * change (rev S' ++ [p; N]) with (rev S' ++ ([p] ++ [N])) in Hpath1.
        rewrite app_assoc in Hpath1. exact (path_ok_prefix _ _ _ _ Hpath1).
    + intros x Hx. destruct (negb (isSelfClosing m)) eqn:Hn;
        [destruct Hx as [<-|Hx]|].
      * split; [lia|]. rewrite <- Hops, nth_ops_last. apply negb_true_iff. exact Hn.
      * pose proof (Hst x Hx) as [Hx1 Hx2]. split; [lia|].
        rewrite nth_ops_app by lia. exact Hx2.
      * pose proof (Hst x Hx) as [Hx1 Hx2]. split; [lia|].
        rewrite nth_ops_app by lia. exact Hx2.
    + destruct (negb (isSelfClosing m)); simpl; lia.
    + intros k Hk. unfold h1. rewrite tagName_lookup_attach. apply Htag1. exact Hk.
    + intros k Hk Hs. destruct (Nat.eq_dec k p) as [->|Hp].
      * rewrite nth_ops_app in Hs by lia. destruct (Hst p) as [_ Hf]; [left; reflexivity|].
        congruence.
      * destruct (Nat.eq_dec k N) as [->|HN]; [exact HchN|].
        rewrite Hcho by auto. rewrite nth_ops_app in Hs by (unfold N in *; lia).
        apply Hleaf; auto. lia.
Qed.

Lemma opening_tokens_cons : forall m ms,
  opening_tokens (m :: ms) =
  (if is_skipped m || isClosingTag m then [] else [m]) ++ opening_tokens ms.
Proof. intros. unfold opening_tokens. simpl. destruct (_ || _); reflexivity. Qed.

Lemma opening_tokens_app : forall l1 l2,
  opening_tokens (l1 ++ l2) = opening_tokens l1 ++ opening_tokens l2.
Proof. intros. unfold opening_tokens. apply filter_app. Qed.

Lemma run_cons : forall st m ms, run st (m :: ms) = run (step st m) ms.
Proof. reflexivity. Qed.

Lemma run_app : forall st l1 l2, run st (l1 ++ l2) = run (run st l1) l2.
Proof. intros. unfold run. apply fold_left_app. Qed.

Lemma creation_depths_app : forall l1 l2 st,
  creation_depths st (l1 ++ l2) = creation_depths st l1 ++ creation_depths (run st l1) l2.
Proof.
  induction l1 as [|m l1 IH]; intros l2 st; [reflexivity|].
  simpl. rewrite IH, app_assoc. reflexivity.
Qed.

Lemma run_inv : forall ms st ops ds, tb_inv ops ds st ->
  tb_inv (ops ++ opening_tokens ms) (ds ++ creation_depths st ms) (run st ms).
Proof.
  induction ms as [|m ms IH]; intros st ops ds H.
  - simpl. rewrite !app_nil_r. exact H.
  - rewrite run_cons, opening_tokens_cons. simpl creation_depths.
    rewrite !app_assoc. apply IH, step_inv, H.
Qed.

Lemma run_tag_matches_inv : forall ms,
  tb_inv (opening_tokens ms) (creation_depths init_state ms) (run init_state ms).
Proof. intro ms. exact (run_inv ms init_state [] [] tb_inv_init). Qed.

(** ** The returned nodes *)

Lemma preorder_mkNode : forall d r it kids,
  preorder d (mkNode r it kids) = (mkNode r it kids, d) :: flat_map (preorder (S d)) kids.
Proof.
  reflexivity.
Qed.

Lemma preorder_reify : forall h f d i,
  map (fun q => (node_ref (fst q), snd q)) (preorder d (reify h f i)) = pre h f d i.
Proof.
  intros h. induction f as [|f IH]; intros d i; [reflexivity|].
  cbn [reify]. rewrite preorder_mkNode, pre_S. cbn [map fst snd node_ref]. f_equal.
  unfold ch. induction (children (lookup h i)) as [|x l IHl]; [reflexivity|].
  cbn [map flat_map]. rewrite map_app, IH, IHl. reflexivity.
Qed.

Lemma preorder_reify_nodes : forall h f d i q, In q (preorder d (reify h f i)) ->
  exists f', fst q = reify h f' (node_ref (fst q)).
Proof.
  intros h. induction f as [|f IH]; intros d i q Hq.
  - simpl in Hq. destruct Hq as [<-|[]]. exists 0. reflexivity.
  - cbn [reify] in Hq. rewrite preorder_mkNode in Hq. destruct Hq as [<-|Hq].
    + exists (S f). reflexivity.
    + apply in_flat_map in Hq as (k & Hk & Hq). apply in_map_iff in Hk as (x & <- & _).
      eapply IH. exact Hq.
Qed.

Lemma ref_depths_reify : forall h f R,
  ref_depths (map (reify h f) R) = flat_map (pre h f 0) R.
Proof.
  intros h f R. unfold ref_depths, forest_preorder.
  induction R as [|i R IH]; [reflexivity|].
  cbn [map flat_map]. rewrite map_app, preorder_reify, IH. reflexivity.
Qed.

Lemma forest_nodes_reify : forall h f R q,
  In q (forest_preorder (map (reify h f) R)) ->
  (exists f', fst q = reify h f' (node_ref (fst q))) /\
  In (node_ref (fst q)) (map fst (flat_map (pre h f 0) R)).
Proof.
  intros h f R q Hq. split.
  - unfold forest_preorder in Hq. apply in_flat_map in Hq as (k & Hk & Hq).
    apply in_map_iff in Hk as (x & <- & _). eapply preorder_reify_nodes. exact Hq.
  - rewrite <- ref_depths_reify. unfold ref_depths. rewrite map_map.
    apply (in_map (fun q => node_ref (fst q))) in Hq. exact Hq.
Qed.

Lemma parseHTMLHierarchy_unfold : forall s,
  parseHTMLHierarchy s =
  map (reify (store (run init_state (tag_matches s)))
             (length (store (run init_state (tag_matches s)))))
      (roots (run init_state (tag_matches s))).
Proof. reflexivity. Qed.

Lemma map_nth_seq' : forall {A} (l : list A) d,
  map (fun k => nth k l d) (seq 0 (length l)) = l.
Proof.
  intros A l d. induction l as [|x l IH]; [reflexivity|].
  simpl. f_equal. rewrite <- seq_shift, map_map. exact IH.
Qed.

(** ** The tag scanner *)

Lemma to_lower_char_bang : forall x, to_lower_char x = "!"%char -> x = "!"%char.
Proof.
  intros x H. unfold to_lower_char in H. destruct (is_upper x) eqn:Hu; [|exact H].
  exfalso. unfold is_upper, in_range in Hu. apply andb_prop in Hu as [H1 H2].
  apply Nat.leb_le in H1. apply Nat.leb_le in H2.
  apply (f_equal nat_of_ascii) in H. rewrite nat_ascii_embedding in H by lia.
  change (nat_of_ascii "!"%char) with 33 in H. lia.
Qed.

Lemma take_while_app_skipn : forall p l, take_while p l ++ skipn (length (take_while p l)) l = l.
Proof.
  intros p l. induction l as [|x l IH]; [reflexivity|]. simpl.
  destruct (p x); simpl; [rewrite IH|]; reflexivity.
Qed.

Lemma split_at_gt_spec : forall l a b, split_at_gt l = Some (a, b) ->
  l = a ++ ">"%char :: b /\ forallb (fun c => negb (Ascii.eqb c ">"%char)) a = true.
Proof.
  induction l as [|c l IH]; intros a b H; simpl in H; [discriminate|].
  destruct (Ascii.eqb c ">"%char) eqn:Hc.
  - injection H as <- <-. apply Ascii.eqb_eq in Hc. subst. auto.
  - destruct (split_at_gt l) as [[a' b']|]; [|discriminate]. injection H as <- <-.
    destruct (IH a' b' eq_refl) as [-> Ha]. simpl. rewrite Hc, Ha. auto.
Qed.

Lemma split_at_gt_none : forall l, In ">"%char l -> split_at_gt l <> None.
Proof.
  induction l as [|c l IH]; intros H; simpl in *; [destruct H|].
  destruct (Ascii.eqb c ">"%char) eqn:Hc; [discriminate|].
  destruct H as [->|H]; [discriminate|]. specialize (IH H).
  destruct (split_at_gt l) as [[]|]; [discriminate|]. contradiction.
Qed.

(** A match of the tag expression: [<], an optional [/], the name (a
    maximal run of word characters), the attributes (no [>]) and [>]. *)
Lemma tag_regex_at_spec : forall r full name attrs,
  tag_regex_at r = Some (full, name, attrs) ->
  exists sl rest,
    r = "<"%char :: sl ++ name ++ attrs ++ ">"%char :: rest /\
    full = "<"%char :: sl ++ name ++ attrs ++ [">"%char] /\
    (sl = [] \/ sl = ["/"%char]) /\ name <> [] /\ forallb is_word name = true /\
    forallb (fun c => negb (Ascii.eqb c ">"%char)) attrs = true.
Proof.
  intros r full name attrs H. unfold tag_regex_at in H.
  destruct r as [|c0 r1]; [discriminate|].
  destruct (Ascii.eqb c0 "<"%char) eqn:Hc0; [|discriminate]. apply Ascii.eqb_eq in Hc0.
  subst c0. cbv zeta in H.
  set (slash := match r1 with c :: _ => Ascii.eqb c "/"%char | [] => false end) in H.
  set (r2 := if slash then tl r1 else r1) in H.
  assert (Hr1 : r1 = (if slash then ["/"%char] else []) ++ r2).
  { unfold r2, slash. destruct r1 as [|c r1']; [reflexivity|].
    destruct (Ascii.eqb c "/"%char) eqn:E; [apply Ascii.eqb_eq in E; subst|]; reflexivity. }
  destruct (take_while is_word r2) as [|n0 ns] eqn:Hn; [discriminate|].
  destruct (split_at_gt (skipn (length (n0 :: ns)) r2)) as [[a b]|] eqn:Hs; [|discriminate].
  injection H as <- <- <-.
  apply split_at_gt_spec in Hs as [Hs Ha].
  pose proof (take_while_app_skipn is_word r2) as Hr2. rewrite Hn, Hs in Hr2.
  exists (if slash then ["/"%char] else []), b.
  assert (Hr : "<"%char :: r1 =
               "<"%char :: (if slash then ["/"%char] else []) ++ (n0 :: ns) ++ a ++ ">"%char :: b)
    by (rewrite Hr1, Hr2; reflexivity).
  split; [exact Hr|]. split.
  - f_equal. rewrite Hr1, <- Hr2. set (sl := if slash then ["/"%char] else []).
    replace ((if slash then 1 else 0) + S (length ns) + length a + 1)
      with (length (sl ++ (n0 :: ns) ++ a ++ [">"%char]))
      by (unfold sl; rewrite !length_app; destruct slash; simpl; lia).
    replace (sl ++ (n0 :: ns) ++ a ++ ">"%char :: b)
      with ((sl ++ (n0 :: ns) ++ a ++ [">"%char]) ++ b)
      by (rewrite <- !app_assoc; reflexivity).
    rewrite firstn_app, Nat.sub_diag, firstn_all. simpl. rewrite app_nil_r. reflexivity.
  - split; [destruct slash; auto|]. split; [discriminate|].
    split; [rewrite <- Hn; apply take_while_all|exact Ha].
Qed.

Lemma exec_all_sound : forall fuel r pos m, In m (exec_all fuel r pos) ->
  pos <= m_index m /\
  tag_regex_at (skipn (m_index m - pos) r) = Some (m_full m, m_name m, m_attrs m).
Proof.
  induction fuel as [|fuel IH]; intros r pos m H; simpl in H; [destruct H|].
  destruct r as [|c r']; [destruct H|].
  destruct (tag_regex_at (c :: r')) as [[[full name] attrs]|] eqn:E.
  - destruct H as [<-|H].
    + simpl. rewrite Nat.sub_diag. auto.
    + apply IH in H as [H1 H2]. split; [lia|].
      rewrite skipn_skipn in H2.
      replace (m_index m - pos) with (m_index m - (pos + length full) + length full) by lia.
      exact H2.
  - apply IH in H as [H1 H2]. split; [lia|].
    replace (m_index m - pos) with (S (m_index m - S pos)) by lia. exact H2.
Qed.

Lemma tag_matches_sound : forall s m, In m (tag_matches s) ->
  tag_regex_at (skipn (m_index m) s) = Some (m_full m, m_name m, m_attrs m).
Proof.
  intros s m H. apply exec_all_sound in H as [_ H]. rewrite Nat.sub_0_r in H. exact H.
Qed.

Lemma prefixb_second : forall a b p c d l, Ascii.eqb b d = false ->
  prefixb (a :: b :: p) (c :: d :: l) = false.
Proof. intros. simpl. rewrite H. apply andb_false_r. Qed.

Lemma text_eqb_head : forall x y a b, Ascii.eqb x y = false -> text_eqb (x :: a) (y :: b) = false.
Proof. intros. simpl. rewrite H. reflexivity. Qed.

Lemma tag_matches_not_skipped : forall s m, In m (tag_matches s) -> is_skipped m = false.
Proof.
  intros s m H. apply tag_matches_sound, tag_regex_at_spec in H
    as (sl & rest & _ & Hfull & Hsl & Hn & Hw & _).
  unfold is_skipped. rewrite Hfull.
  destruct (m_name m) as [|n0 ns] eqn:En; [contradiction|].
  simpl in Hw. apply andb_prop in Hw as [Hw0 _].
  assert (Hb : n0 <> "!"%char) by (intros ->; discriminate).
  apply orb_false_iff. split.
  - change (to_lower (n0 :: ns)) with (to_lower_char n0 :: to_lower ns).
    change (str "!doctype") with ("!"%char :: str "doctype").
    apply text_eqb_head. apply Ascii.eqb_neq. intro E. apply to_lower_char_bang in E.
    contradiction.
  - change (str "<!--") with ["<"%char; "!"%char; "-"%char; "-"%char].
    destruct Hsl as [->| ->].
    + apply prefixb_second. apply Ascii.eqb_neq. congruence.
    + apply prefixb_second. reflexivity.
Qed.

(** ** Well-formed token streams *)

Lemma step_open_stack : forall st m, is_skipped m = false -> isClosingTag m = false ->
  stack (step st m) =
  if negb (isSelfClosing m) then length (store st) :: stack st else stack st.
Proof.
  intros [h sk R] m H1 H2. unfold step. rewrite H1, H2. cbn [store stack].
  destruct sk; reflexivity.
Qed.

Lemma step_close_pop : forall st m x rest, is_skipped m = false -> isClosingTag m = true ->
  stack st = x :: rest -> tagName (lookup (store st) x) = to_lower (m_name m) ->
  step st m = mkState (store st) rest (roots st).
Proof.
  intros [h sk R] m x rest H1 H2 Hs Ht. unfold step. rewrite H1, H2.
  cbn [store stack roots] in *. subst sk. rewrite Ht.
  replace (text_eqb _ _) with true by (symmetry; apply text_eqb_eq; reflexivity).
  reflexivity.
Qed.

Lemma wf_run : forall d toks ds, wf_tokens d toks ds ->
  forall st ops dsx, tb_inv ops dsx st -> length (stack st) = d ->
  Forall (fun m => is_skipped m = false) toks ->
  stack (run st toks) = stack st /\ creation_depths st toks = ds.
Proof.
  induction 1 as [d|d m rest ds Hc Hs Hwf IH|d m body c rest dsb dsr Hc Hs Hb IHb Hcc Hn Hr IHr];
    intros st ops dsx Hinv Hd Hsk.
  - split; reflexivity.
  - apply Forall_cons_iff in Hsk as [Hm Hrest].
    pose proof (step_inv ops dsx st m Hinv) as Hinv1. rewrite Hm, Hc in Hinv1.
    simpl orb in Hinv1. cbv iota in Hinv1.
    assert (Hst : stack (step st m) = stack st)
      by (rewrite step_open_stack, Hs by auto; reflexivity).
    destruct (IH _ _ _ Hinv1 ltac:(rewrite Hst; exact Hd) Hrest) as [H1 H2].
    rewrite run_cons. split; [congruence|]. simpl. rewrite Hm, Hc. simpl.
    rewrite H2, Hd. reflexivity.
  - apply Forall_cons_iff in Hsk as [Hm Hrest].
    apply Forall_app in Hrest as [Hbody Hcrest].
    apply Forall_cons_iff in Hcrest as [Hcsk Hrest].
    set (N := length (store st)).
    pose proof (step_inv ops dsx st m Hinv) as Hinv1. rewrite Hm, Hc in Hinv1.
    simpl orb in Hinv1. cbv iota in Hinv1.
    set (st1 := step st m) in *.
    assert (Hst1 : stack st1 = N :: stack st)
      by (unfold st1; rewrite step_open_stack, Hs by auto; reflexivity).
    destruct (IHb _ _ _ Hinv1 ltac:(rewrite Hst1; simpl; lia) Hbody) as [Hb1 Hb2].
    set (st2 := run st1 body) in *.
    pose proof (run_inv body st1 _ _ Hinv1) as Hinv2. fold st2 in Hinv2.
    assert (Htop : tagName (lookup (store st2) N) = to_lower (m_name c)).
    { destruct Hinv2 as (Hops2 & _ & _ & _ & _ & _ & _ & _ & Htag2 & _).
      destruct Hinv as (Hops & _).
      rewrite Hn, Htag2.
      - rewrite <- app_assoc. rewrite app_nth2 by (unfold N; lia).
        unfold N. rewrite <- Hops, Nat.sub_diag. reflexivity.
      - rewrite <- Hops2, !length_app. simpl. destruct Hinv1 as (Hops1 & _).
        unfold N. lia. }
    assert (Hst3 : step st2 c = mkState (store st2) (stack st) (roots st2))
      by (apply (step_close_pop st2 c N); auto; rewrite Hb1, Hst1; reflexivity).
    pose proof (step_inv _ _ st2 c Hinv2) as Hinv3. rewrite Hcsk, Hcc in Hinv3.
    simpl orb in Hinv3. cbv iota in Hinv3.
    destruct (IHr _ _ _ Hinv3 ltac:(rewrite Hst3; exact Hd) Hrest) as [Hr1 Hr2].
    rewrite run_cons, run_app, run_cons. fold st1 st2.
    split; [rewrite Hr1, Hst3; reflexivity|].
    simpl creation_depths. rewrite Hm, Hc. simpl orb. cbv iota.
    fold st1. rewrite creation_depths_app. fold st2. simpl creation_depths.
    rewrite Hcsk, Hcc. simpl. rewrite Hb2, Hr2, Hd. reflexivity.
Qed.

(** * Claims about the tree builder *)

(** C5 (as amended): for a document whose tokens, as the tree builder
    recognises them, are well formed (a self-closing or void opening tag is
    a leaf without closing tag, every other opening tag is closed by a
    same-name closing tag after a well-formed body), the forest lists, in
    document order, one node per opening tag: the [k]-th node is the item of
    the [k]-th opening tag, its depth is the nesting depth of that tag, and
    its tag name is that tag's name in lower case. *)
Theorem parseHTMLHierarchy_wf_depths : forall s ds,
  wf_tokens 0 (tag_matches s) ds ->
  ref_depths (parseHTMLHierarchy s) = combine (seq 0 (length ds)) ds /\
  length ds = length (opening_tokens (tag_matches s)) /\
  map (fun q => tagName (node_item (fst q))) (forest_preorder (parseHTMLHierarchy s)) =
  map (fun m => to_lower (m_name m)) (opening_tokens (tag_matches s)).
Proof.
  intros s ds Hwf.
  pose proof (run_tag_matches_inv (tag_matches s)) as Hinv.
  destruct (wf_run 0 _ _ Hwf init_state [] [] tb_inv_init eq_refl
              (proj2 (Forall_forall _ _) (tag_matches_not_skipped s))) as [_ Hcd].
  rewrite Hcd in Hinv.
  rewrite parseHTMLHierarchy_unfold.
  set (st := run init_state (tag_matches s)) in *.
  destruct Hinv as (Hops & Hds & Hsc & Hr & Hpre & _ & _ & _ & Htag & _).
  rewrite ref_depths_reify, Hpre, Hds.
  split; [reflexivity|]. split; [congruence|].
  set (h := store st) in *. set (N := length h) in *.
  transitivity (map (fun q => tagName (lookup h (fst q))) (ref_depths (map (reify h N) (roots st)))).
  - unfold ref_depths. rewrite map_map. apply map_ext_in. intros q Hq.
    apply forest_nodes_reify in Hq as [[f' Hf'] _]. cbn [fst]. rewrite Hf'.
    destruct f'; reflexivity.
  - rewrite ref_depths_reify, Hpre.
    rewrite <- (map_map fst (fun k => tagName (lookup h k))).
    rewrite map_fst_combine' by (rewrite length_seq; auto).
    rewrite <- (map_nth_seq' (opening_tokens (tag_matches s)) no_match), map_map.
    rewrite Hops. apply map_ext_in. intros k Hk. apply in_seq in Hk.
    apply Htag. lia.
Qed.

Lemma parseHTMLHierarchy_wf_depths_witness :
  wf_tokens 0 (tag_matches div_p) [0; 1] /\
  ref_depths (parseHTMLHierarchy div_p) = [(0, 0); (1, 1)].
Proof.
  assert (H : wf_tokens 0 (tag_matches div_p) [0; 1]).
  { vm_compute.
    refine (wf_elem 0 _ [_; _] _ [] [1] [] _ _ _ _ _ (wf_nil 0));
      [reflexivity|reflexivity| |reflexivity|reflexivity].
    refine (wf_elem 1 _ [] _ [] [] [] _ _ (wf_nil 2) _ _ (wf_nil 1)); reflexivity. }
  split; [exact H|].
  exact (proj1 (parseHTMLHierarchy_wf_depths div_p [0; 1] H)).
Defined.

(** C5 as stated fails: [<br><p></p></br>] is well formed when every opening
    tag, void ones included, takes a closing tag ([p] nested at depth 1 in
    [br]), but [br] is void, is never stacked, and [p] becomes a second root
    at depth 0. *)
Lemma parseHTMLHierarchy_void_close_counterexample :
  ~ (forall s ds, wf_literal 0 (tag_matches s) ds ->
       ref_depths (parseHTMLHierarchy s) = combine (seq 0 (length ds)) ds).
Proof.
  intro H.
  assert (Hw : wf_literal 0 (tag_matches br_p) [0; 1]).
  { vm_compute.
    refine (wl_elem 0 _ [_; _] _ [] [1] [] _ _ _ _ (wl_nil 0));
      [reflexivity| |reflexivity|reflexivity].
    refine (wl_elem 1 _ [] _ [] [] [] _ (wl_nil 2) _ _ (wl_nil 1)); reflexivity. }
  specialize (H br_p [0; 1] Hw). vm_compute in H. discriminate H.
Qed.

(** C6: a closing tag token pops the stack exactly when the stack is not
    empty and its top item has the token's (lower-cased) tag name; otherwise
    the whole state, stack included, is left as it was. *)
Theorem closing_token_pops_iff_top_matches : forall s m st,
  In m (tag_matches s) -> isClosingTag m = true ->
  ((exists top rest, stack st = top :: rest /\
                     tagName (lookup (store st) top) = to_lower (m_name m)) ->
   step st m = mkState (store st) (tl (stack st)) (roots st)) /\
  (~ (exists top rest, stack st = top :: rest /\
                       tagName (lookup (store st) top) = to_lower (m_name m)) ->
   step st m = st) /\
  (stack (step st m) <> stack st <->
   exists top rest, stack st = top :: rest /\
                    tagName (lookup (store st) top) = to_lower (m_name m)).
Proof.
  intros s m [h sk R] Hin Hc. pose proof (tag_matches_not_skipped s m Hin) as Hsk.
  unfold step. rewrite Hsk, Hc. cbn [store stack roots].
  destruct sk as [|top rest].
  - split; [intros (? & ? & E & _); discriminate|].
    split; [reflexivity|]. split; [intro E; contradiction|].
    intros (? & ? & E & _); discriminate.
  - destruct (text_eqb (tagName (lookup h top)) (to_lower (m_name m))) eqn:E.
    + apply text_eqb_eq in E.
      split; [reflexivity|]. split; [intro Hn; exfalso; apply Hn; eauto|].
      split; [eauto|]. intros _ Heq. cbn [stack] in Heq.
      apply (f_equal (@length nat)) in Heq. simpl in Heq. lia.
    + assert (Hn : ~ exists top' rest', top :: rest = top' :: rest' /\
                     tagName (lookup h top') = to_lower (m_name m)).
      { intros (top' & rest' & Heq & Ht). injection Heq as <- <-.
        rewrite Ht in E. rewrite (proj2 (text_eqb_eq _ _) eq_refl) in E. discriminate. }
      split; [intro; contradiction|]. split; [reflexivity|].
      split; [intro Hne; contradiction|]. intro; contradiction.
Qed.

Lemma closing_token_pops_iff_top_matches_witness :
  In (nth 1 (tag_matches div_x) no_match) (tag_matches div_x) /\
  stack (step (run init_state (firstn 1 (tag_matches div_x)))
              (nth 1 (tag_matches div_x) no_match))
    <> stack (run init_state (firstn 1 (tag_matches div_x))).
Proof.
  assert (Hin : In (nth 1 (tag_matches div_x) no_match) (tag_matches div_x))
    by (apply nth_In; vm_compute; lia).
  split; [exact Hin|].
  apply (proj2 (proj2 (closing_token_pops_iff_top_matches div_x _ _ Hin
                         ltac:(vm_compute; reflexivity)))).
  exists 0, []. vm_compute. split; reflexivity.
Defined.

(** C7: every node of the forest whose opening tag is self-closing ([/>]) or
    has a void name has no children, and its item is on the stack after no
    prefix of the token stream. *)
Theorem self_closing_nodes_are_leaves : forall s q,
  In q (forest_preorder (parseHTMLHierarchy s)) ->
  isSelfClosing (nth (node_ref (fst q)) (opening_tokens (tag_matches s)) no_match) = true ->
  node_kids (fst q) = [] /\
  forall k, ~ In (node_ref (fst q)) (stack (run init_state (firstn k (tag_matches s)))).
Proof.
  intros s q Hq Hsc. rewrite parseHTMLHierarchy_unfold in Hq.
  pose proof (run_tag_matches_inv (tag_matches s)) as Hinv.
  set (st := run init_state (tag_matches s)) in *.
  apply forest_nodes_reify in Hq as [[f' Hf'] Hv].
  destruct Hinv as (Hops & Hds & Hscp & Hr & Hpre & _ & _ & _ & _ & Hleaf).
  rewrite Hpre, map_fst_combine', in_seq in Hv by (rewrite length_seq; auto).
  split.
  - rewrite Hf'. pose proof (Hleaf (node_ref (fst q)) ltac:(lia) Hsc) as Hch. unfold ch in Hch.
    destruct f'; simpl; [reflexivity|]. rewrite Hch. reflexivity.
  - intros k Hk.
    pose proof (run_tag_matches_inv (firstn k (tag_matches s))) as Hinvk.
    destruct Hinvk as (Hopsk & _ & _ & _ & _ & _ & Hstk & _).
    destruct (Hstk _ Hk) as [Hlt Hns].
    rewrite <- (firstn_skipn k (tag_matches s)), opening_tokens_app, app_nth1 in Hsc
      by lia.
    congruence.
Qed.

Lemma self_closing_nodes_are_leaves_witness :
  node_kids (fst (nth 1 (forest_preorder (parseHTMLHierarchy div_br))
                    (mkNode 0 default_dependency [], 0))) = [].
Proof.
  exact (proj1 (self_closing_nodes_are_leaves div_br
                  (nth 1 (forest_preorder (parseHTMLHierarchy div_br))
                     (mkNode 0 default_dependency [], 0))
                  ltac:(apply nth_In; vm_compute; lia)
                  ltac:(vm_compute; reflexivity))).
Defined.

(** ** Attribute extraction *)

Lemma drop_while_spec : forall p l, exists ws, l = ws ++ drop_while p l /\ forallb p ws = true.
Proof.
  intros p l. induction l as [|x l IH]; [exists []; auto|]. simpl.
  destruct (p x) eqn:Hx.
  - destruct IH as (ws & Hl & Hw). exists (x :: ws). simpl. rewrite Hx, <- Hl. auto.
  - exists []. auto.
Qed.

Lemma drop_while_app : forall p ws c l, forallb p ws = true -> p c = false ->
  drop_while p (ws ++ c :: l) = c :: l.
Proof.
  intros p ws c l. induction ws as [|x ws IH]; intros Hw Hc; simpl in *.
  - rewrite Hc. reflexivity.
  - apply andb_prop in Hw as [Hx Hw]. rewrite Hx. auto.
Qed.

Lemma take_while_app_stop : forall p v c l, forallb p v = true -> p c = false ->
  take_while p (v ++ c :: l) = v.
Proof.
  intros p v c l. induction v as [|x v IH]; intros Hv Hc; simpl in *.
  - rewrite Hc. reflexivity.
  - apply andb_prop in Hv as [Hx Hv]. rewrite Hx, IH; auto.
Qed.

Lemma is_quote_not_space : forall c, is_quote c = true -> is_space c = false.
Proof.
  intros c H. unfold is_quote in H. apply orb_prop in H as [H|H];
    apply Ascii.eqb_eq in H; subst; reflexivity.
Qed.

Lemma length_to_lower : forall t, length (to_lower t) = length t.
Proof. intros. apply length_map. Qed.

(** One match of the attribute expression at the head of [r]. *)
Lemma attr_regex_at_spec : forall name r v, attr_regex_at name r = Some v <->
  exists pre ws1 ws2 q1 q2 rest,
    r = pre ++ ws1 ++ "="%char :: ws2 ++ q1 :: v ++ q2 :: rest /\
    to_lower pre = name /\ forallb is_space ws1 = true /\ forallb is_space ws2 = true /\
    is_quote q1 = true /\ is_quote q2 = true /\ v <> [] /\
    forallb (fun c => negb (is_quote c)) v = true.
Proof.
  intros name r v. split.
  - intro H. unfold attr_regex_at in H.
    destruct (text_eqb (to_lower (firstn (length name) r)) name) eqn:Hn; [|discriminate].
    apply text_eqb_eq in Hn.
    destruct (drop_while_spec is_space (skipn (length name) r)) as (ws1 & Hws1 & Hs1).
    destruct (drop_while is_space (skipn (length name) r)) as [|c r3] eqn:E1; [discriminate|].
    destruct (Ascii.eqb c "="%char) eqn:Hc; [|discriminate]. apply Ascii.eqb_eq in Hc. subst c.
    destruct (drop_while_spec is_space r3) as (ws2 & Hws2 & Hs2).
    destruct (drop_while is_space r3) as [|q1 r5] eqn:E2; [discriminate|].
    destruct (is_quote q1) eqn:Hq1; [|discriminate].
    pose proof (take_while_app_skipn (fun c => negb (is_quote c)) r5) as Hr5.
    destruct (take_while (fun c => negb (is_quote c)) r5) as [|v0 vs] eqn:Ev; [discriminate|].
    destruct (skipn (length (v0 :: vs)) r5) as [|q2 rest] eqn:Es; [discriminate|].
    destruct (is_quote q2) eqn:Hq2; [|discriminate]. injection H as <-.
    exists (firstn (length name) r), ws1, ws2, q1, q2, rest.
    split; [|split; [exact Hn|split; [exact Hs1|split; [exact Hs2|]]]].
    + rewrite <- (firstn_skipn (length name) r) at 1. f_equal.
      rewrite Hws1. f_equal. simpl. f_equal. rewrite Hws2. f_equal. f_equal.
      symmetry. exact Hr5.
    + split; [exact Hq1|]. split; [exact Hq2|]. split; [discriminate|].
      rewrite <- Ev. apply take_while_all.
  - intros (pre & ws1 & ws2 & q1 & q2 & rest & -> & Hpre & Hs1 & Hs2 & Hq1 & Hq2 & Hv & Hvq).
    unfold attr_regex_at.
    assert (Hlen : length name = length pre) by (rewrite <- Hpre; apply length_to_lower).
    rewrite Hlen, firstn_app, Nat.sub_diag, firstn_O, app_nil_r, firstn_all, skipn_app,
      Nat.sub_diag, skipn_O, skipn_all, app_nil_l.
    rewrite Hpre. replace (text_eqb name name) with true
      by (symmetry; apply text_eqb_eq; reflexivity).
    rewrite drop_while_app by auto.
    rewrite Ascii.eqb_refl.
    rewrite drop_while_app by (auto using is_quote_not_space).
    rewrite Hq1. cbv zeta.
    rewrite take_while_app_stop by (auto; rewrite Hq2; reflexivity).
    destruct v as [|v0 vs]; [contradiction|].
    rewrite skipn_app, Nat.sub_diag, skipn_all, app_nil_l, skipn_O. rewrite Hq2. reflexivity.
Qed.

Lemma attr_search_spec : forall name r,
  (attr_search name r = None -> forall p, attr_regex_at name (skipn p r) = None) /\
  (forall v, attr_search name r = Some v ->
     exists p, attr_regex_at name (skipn p r) = Some v /\
               forall q, q < p -> attr_regex_at name (skipn q r) = None).
Proof.
  intros name r. induction r as [|c r IH].
  - simpl. destruct (attr_regex_at name []) as [v|] eqn:E.
    + split; [discriminate|]. intros v' H. injection H as <-. exists 0.
      split; [exact E|]. intros; lia.
    + split; [|discriminate]. intros _ p. rewrite skipn_nil. exact E.
  - simpl. destruct (attr_regex_at name (c :: r)) as [v|] eqn:E.
    + split; [discriminate|]. intros v' H. injection H as <-. exists 0.
      split; [exact E|]. intros; lia.
    + destruct IH as [IH1 IH2]. split.
      * intros H [|p]; [exact E|]. apply IH1. exact H.
      * intros v H. destruct (IH2 v H) as (p & Hp & Hq). exists (S p).
        split; [exact Hp|]. intros [|q] Hlt; [exact E|]. apply Hq. lia.
Qed.

(** ** The tag expressions *)

Lemma take_while_app_all : forall p w l, forallb p w = true ->
  take_while p (w ++ l) = w ++ take_while p l.
Proof.
  intros p w l. induction w as [|x w IH]; intros Hw; simpl in *; [reflexivity|].
  apply andb_prop in Hw as [Hx Hw]. rewrite Hx, IH; auto.
Qed.

Lemma take_while_stop_length : forall p a c l, p c = false ->
  length (take_while p (a ++ c :: l)) <= length a.
Proof.
  intros p a c l Hc. induction a as [|x a IH]; simpl.
  - rewrite Hc. simpl. lia.
  - destruct (p x); simpl; lia.
Qed.

Lemma in_skipn_gt : forall a rest k, k <= length a -> In ">"%char (skipn k (a ++ ">"%char :: rest)).
Proof.
  intros a rest k Hk. rewrite skipn_app. apply in_or_app. right.
  replace (k - length a) with 0 by lia. left. reflexivity.
Qed.

Lemma is_word_gt : is_word ">"%char = false.
Proof. reflexivity. Qed.

Lemma is_name_char_gt : is_name_char ">"%char = false.
Proof. reflexivity. Qed.

Lemma skipn_app_len : forall (w x : text) k, skipn (length w + k) (w ++ x) = skipn k x.
Proof. induction w as [|c w IH]; intros; simpl; auto. Qed.

Lemma tag_regex_at_some : forall sl w a rest,
  (sl = [] \/ sl = ["/"%char]) -> w <> [] -> forallb is_word w = true ->
  tag_regex_at ("<"%char :: sl ++ w ++ a ++ ">"%char :: rest) <> None.
Proof.
  intros sl w a rest Hsl Hw Hww. unfold tag_regex_at. rewrite Ascii.eqb_refl. cbv zeta.
  set (r2 := if match sl ++ w ++ a ++ ">"%char :: rest with
                | c :: _ => Ascii.eqb c "/"%char
                | [] => false
                end
             then tl (sl ++ w ++ a ++ ">"%char :: rest)
             else sl ++ w ++ a ++ ">"%char :: rest).
  set (slash := match sl ++ w ++ a ++ ">"%char :: rest with
                | c :: _ => Ascii.eqb c "/"%char
                | [] => false
                end).
  assert (Hr2 : r2 = w ++ a ++ ">"%char :: rest).
  { unfold r2. destruct Hsl as [->| ->]; [|reflexivity].
    destruct w as [|c w']; [contradiction|]. simpl app. cbv iota.
    simpl in Hww. apply andb_prop in Hww as [Hc _].
    destruct (Ascii.eqb c "/"%char) eqn:E; [|reflexivity].
    apply Ascii.eqb_eq in E. subst. discriminate. }
  fold slash. fold slash in r2. clearbody r2. subst r2.
  rewrite take_while_app_all by exact Hww.
  destruct (w ++ take_while is_word (a ++ ">"%char :: rest)) as [|n0 ns] eqn:En.
  { destruct w; [contradiction|discriminate]. }
  rewrite <- En, length_app, skipn_app_len.
  destruct (split_at_gt _) as [[x y]|] eqn:Es; [discriminate|].
  exfalso. revert Es. apply split_at_gt_none, in_skipn_gt, take_while_stop_length.
  exact is_word_gt.
Qed.

Lemma exec_all_complete : forall fuel r pos, length r < fuel ->
  forall j, j < length r -> tag_regex_at (skipn j r) <> None ->
  exists m, In m (exec_all fuel r pos) /\
            m_index m <= pos + j < m_index m + length (m_full m).
Proof.
  induction fuel as [|fuel IH]; intros r pos Hf j Hj Hm; [lia|].
  destruct r as [|c r']; [simpl in Hj; lia|]. cbn [exec_all].
  destruct (tag_regex_at (c :: r')) as [[[full name] attrs]|] eqn:E.
  - destruct (tag_regex_at_spec _ _ _ _ E) as (sl & rest & Hr & Hfull & _).
    assert (Hfl : length full <= length (c :: r')).
    { rewrite Hr, Hfull. simpl. rewrite !length_app. simpl. lia. }
    destruct (Nat.lt_ge_cases j (length full)) as [Hlt|Hge].
    + exists (mkMatch pos full name attrs). split; [simpl; left; reflexivity|]. simpl. lia.
    + assert (Hfull1 : 1 <= length full) by (rewrite Hfull; simpl; lia).
      destruct (IH (skipn (length full) (c :: r')) (pos + length full))
        with (j := j - length full) as (m & Hin & Hidx).
      * rewrite length_skipn. lia.
      * rewrite length_skipn. lia.
      * rewrite skipn_skipn. replace (j - length full + length full) with j by lia.
        exact Hm.
      * exists m. split; [simpl; right; exact Hin|]. lia.
  - destruct j as [|j]; [contradiction|].
    destruct (IH r' (S pos)) with (j := j) as (m & Hin & Hidx); cbn [skipn length] in *; try lia.
    + exact Hm.
    + exists m. split; [exact Hin|]. lia.
Qed.

Lemma in_gt_existsb : forall l, In ">"%char l ->
  existsb (fun c => Ascii.eqb c ">"%char) l = true.
Proof. intros l H. apply existsb_exists. exists ">"%char. split; [exact H|reflexivity]. Qed.

(** The opening-tag test of the locator: [<], a letter, name characters, a run of
    non-[>] characters, [>]. *)
Lemma open_tag_match_iff : forall s i, open_tag_match s i <> None <->
  exists c w a rest,
    skipn i s = "<"%char :: c :: w ++ a ++ ">"%char :: rest /\
    is_letter c = true /\ forallb is_name_char w = true /\
    forallb (fun x => negb (Ascii.eqb x ">"%char)) a = true.
Proof.
  intros s i. unfold open_tag_match. split.
  - destruct (skipn i s) as [|c0 [|c1 rest0]];
      [intro H; exfalso; apply H; reflexivity|intro H; exfalso; apply H; reflexivity|].
    destruct (Ascii.eqb c0 "<"%char && is_letter c1) eqn:Hb;
      [|intro H; exfalso; apply H; reflexivity].
    apply andb_prop in Hb as [H0 H1]. apply Ascii.eqb_eq in H0. subst c0. cbv zeta.
    destruct (existsb _ _) eqn:Hx; [|intro H; exfalso; apply H; reflexivity]. intros _.
    cbn [length skipn] in Hx.
    set (t := take_while is_name_char rest0) in *.
    apply existsb_exists in Hx as (x & Hin & Hxe). apply Ascii.eqb_eq in Hxe. subst x.
    destruct (split_at_gt (skipn (length t) rest0)) as [[a b]|] eqn:Es;
      [|exfalso; exact (split_at_gt_none _ Hin Es)].
    apply split_at_gt_spec in Es as [Hab Ha].
    exists c1, t, a, b. split; [|split; [exact H1|split; [apply take_while_all|exact Ha]]].
    f_equal. f_equal. rewrite <- Hab. symmetry. apply take_while_app_skipn.
  - intros (c & w & a & rest & Hs & Hc & Hw & Ha). rewrite Hs. cbn beta iota zeta.
    rewrite Ascii.eqb_refl, Hc. cbn [andb].
    rewrite take_while_app_all by exact Hw.
    cbn [length skipn]. rewrite length_app, skipn_app_len.
    rewrite in_gt_existsb; [discriminate|].
    apply in_skipn_gt, take_while_stop_length. exact is_name_char_gt.
Qed.

Lemma open_tag_match_shape : forall s i n, open_tag_match s i = Some n ->
  exists c1 rest, skipn i s = "<"%char :: c1 :: rest /\ is_letter c1 = true.
Proof.
  intros s i n H. unfold open_tag_match in H.
  destruct (skipn i s) as [|c0 [|c1 rest]]; try discriminate.
  destruct (Ascii.eqb c0 "<"%char && is_letter c1) eqn:E; [|discriminate].
  apply andb_prop in E as [E1 E2]. apply Ascii.eqb_eq in E1. subst c0. eauto.
Qed.

(** A position where the pattern matches passes the guards of the loops:
    it holds [<], is not the last index, and starts neither [<!--] nor [</]. *)
Lemma open_tag_match_guards : forall s i n, open_tag_match s i = Some n ->
  is_char s i "<"%char && (i <? length s - 1) = true /\
  text_eqb (substring s i (i + 4)) (str "<!--") || is_char s (i + 1) "/"%char = false.
Proof.
  intros s i n H. destruct (open_tag_match_shape s i n H) as (c1 & rest & Hs & Hl).
  assert (Hnth : forall k, nth_error s (i + k) = nth_error ("<"%char :: c1 :: rest) k)
    by (intro k; rewrite <- nth_error_skipn_add, Hs; reflexivity).
  assert (Hlen : length s - i = S (S (length rest)))
    by (rewrite <- length_skipn, Hs; reflexivity).
  assert (Hbang : Ascii.eqb c1 "!"%char = false)
    by (destruct (Ascii.eqb c1 "!"%char) eqn:E; [apply Ascii.eqb_eq in E; subst c1;
        discriminate Hl|reflexivity]).
  assert (Hsl : Ascii.eqb c1 "/"%char = false)
    by (destruct (Ascii.eqb c1 "/"%char) eqn:E; [apply Ascii.eqb_eq in E; subst c1;
        discriminate Hl|reflexivity]).
  split.
  - unfold is_char. rewrite <- (Nat.add_0_r i) at 1. rewrite Hnth.
    cbn [nth_error]. rewrite Ascii.eqb_refl. cbn [andb]. apply Nat.ltb_lt. lia.
  - unfold substring. replace (i + 4 - i) with 4 by lia. rewrite Hs.
    change (str "<!--") with ["<"%char; "!"%char; "-"%char; "-"%char].
    cbn [firstn text_eqb]. rewrite Ascii.eqb_refl, Hbang. cbn [andb orb].
    unfold is_char. rewrite Hnth. exact Hsl.
Qed.

Lemma opening_candidate_eq : forall s i,
  opening_candidate s i =
    match open_tag_match s i with
    | Some n => Found i (to_lower n)
    | None => Continue
    end.
Proof.
  intros s i. destruct (open_tag_match s i) as [n|] eqn:Hm.
  - destruct (open_tag_match_guards s i n Hm) as [G1 G2].
    unfold opening_candidate. rewrite G1, G2, Hm. reflexivity.
  - unfold opening_candidate.
    destruct (is_char s i "<"%char && (i <? length s - 1)); [|reflexivity].
    destruct (_ || _); [reflexivity|]. rewrite Hm. reflexivity.
Qed.

Lemma back_body_match : forall s i,
  match open_tag_match s i with
  | Some n => back_body s i = Found i (to_lower n)
  | None => forall st n, back_body s i <> Found st n
  end.
Proof.
  intros s i. destruct (open_tag_match s i) as [n|] eqn:Hm.
  - destruct (open_tag_match_guards s i n Hm) as [G1 G2].
    unfold back_body. cbv zeta. rewrite G1, G2, Hm. reflexivity.
  - intros st n. unfold back_body. cbv zeta.
    destruct (is_char s i "<"%char && (i <? length s - 1));
      [destruct (_ || _); [discriminate|rewrite Hm]|];
      destruct (is_char s i ">"%char && (0 <? i) && negb (is_char s (i - 1) "/"%char));
      try discriminate;
      destruct (is_char s (walk_back s i + 1) "/"%char); discriminate.
Qed.

(** ** C8 *)

(** C8 (code bug). What the code does: [extractAttribute attributes attrName]
    returns the value of
    the leftmost case-insensitive match, anywhere in the raw attribute text,
    of: [attrName], optional white space, [=], optional white space, a quote
    character, one or more non-quote characters (the value), a quote
    character; without a match it returns the empty text (absent). For the
    opening tag of [span_tag] the tree item has id [s1] and first class name
    [foo]. The name is matched anywhere, not at an attribute boundary, so the
    function, meant to read the attribute named [attrName], can read another
    one (see the failing inputs below). *)
Theorem extractAttribute_leftmost_quoted_match :
  (forall name r v, attr_regex_at name r = Some v <->
     exists pre ws1 ws2 q1 q2 rest,
       r = pre ++ ws1 ++ "="%char :: ws2 ++ q1 :: v ++ q2 :: rest /\
       to_lower pre = name /\ forallb is_space ws1 = true /\ forallb is_space ws2 = true /\
       is_quote q1 = true /\ is_quote q2 = true /\ v <> [] /\
       forallb (fun c => negb (is_quote c)) v = true) /\
  (forall attributes name,
     (extractAttribute attributes name = [] /\
      forall p, attr_regex_at name (skipn p attributes) = None) \/
     (exists p, attr_regex_at name (skipn p attributes) = Some (extractAttribute attributes name) /\
                extractAttribute attributes name <> [] /\
                forall q, q < p -> attr_regex_at name (skipn q attributes) = None)) /\
  (exists n, parseHTMLHierarchy span_tag = [n] /\
             elementId (node_item n) = str "s1" /\
             first_class (className (node_item n)) = str "foo").
Proof.
  split; [exact attr_regex_at_spec|]. split.
  - intros attributes name. unfold extractAttribute.
    destruct (attr_search_spec name attributes) as [H1 H2].
    destruct (attr_search name attributes) as [v|] eqn:E.
    + right. destruct (H2 v eq_refl) as (p & Hp & Hq). exists p.
      split; [exact Hp|]. split; [|exact Hq].
      apply attr_regex_at_spec in Hp as (pre & ws1 & ws2 & q1 & q2 & rest & Hv).
      tauto.
    + left. split; [reflexivity|]. apply H1. reflexivity.
  - eexists. split; [vm_compute; reflexivity|]. split; vm_compute; reflexivity.
Qed.

Lemma extractAttribute_leftmost_quoted_match_witness :
  attr_regex_at (str "id") (html "id='s1'") = Some (str "s1").
Proof.
  apply (proj2 (proj1 extractAttribute_leftmost_quoted_match (str "id") (html "id='s1'")
                  (str "s1"))).
  exists (str "id"), [], [], dquote, dquote, [].
  split; [reflexivity|]. repeat split; try reflexivity. discriminate.
Defined.

(** C8, failing inputs: the name is not anchored at an attribute boundary.
    The attribute text [ data-id=Qz] has no [id] attribute, and in
    [ id=x valid=Qq] the [id] attribute is unquoted (Q is a quote character);
    both still yield an id, where an absent value is meant. *)
Lemma extractAttribute_unanchored_counterexample :
  extractAttribute (html " data-id='z'") (str "id") = str "z" /\
  extractAttribute (html " id=x valid='q'") (str "id") = str "q".
Proof. split; vm_compute; reflexivity. Qed.

(** ** C9 *)

(** C9 (amended). The tree builder's scan recognises a token at a position
    exactly when the text there is [<], an optional [/], one or more word
    characters ([A-Za-z0-9_], the name), a run of non-[>] characters, [>];
    every token it returns sits at such a position, and every such position
    lies inside a token, the scan never failing on other text. The locator's
    anchor test recognises an opening tag at a position exactly when the text
    there is [<], an ASCII letter, letters, digits or hyphens, a run of
    non-[>] characters, [>]: the per-index test of the forward loop
    ([opening_candidate]) and that of the backward loop ([back_body]) find an
    opening tag at [i] exactly where this pattern matches there, with the
    lower-cased captured name; their guards ([i < length - 1], [<!--], [</])
    never reject such a position; and every anchor the search returns is
    such a position. *)
Theorem tag_recognition_patterns :
  (forall r, tag_regex_at r <> None <->
     exists sl w a rest,
       r = "<"%char :: sl ++ w ++ a ++ ">"%char :: rest /\
       (sl = [] \/ sl = ["/"%char]) /\ w <> [] /\ forallb is_word w = true /\
       forallb (fun x => negb (Ascii.eqb x ">"%char)) a = true) /\
  (forall s i, open_tag_match s i <> None <->
     exists c w a rest,
       skipn i s = "<"%char :: c :: w ++ a ++ ">"%char :: rest /\
       is_letter c = true /\ forallb is_name_char w = true /\
       forallb (fun x => negb (Ascii.eqb x ">"%char)) a = true) /\
  (forall s m, In m (tag_matches s) ->
     tag_regex_at (skipn (m_index m) s) = Some (m_full m, m_name m, m_attrs m)) /\
  (forall s j, j < length s -> tag_regex_at (skipn j s) <> None ->
     exists m, In m (tag_matches s) /\ m_index m <= j < m_index m + length (m_full m)) /\
  (forall s i, opening_candidate s i =
     match open_tag_match s i with
     | Some n => Found i (to_lower n)
     | None => Continue
     end) /\
  (forall s i, match open_tag_match s i with
     | Some n => back_body s i = Found i (to_lower n)
     | None => forall st n, back_body s i <> Found st n
     end) /\
  (forall s off st tn, find_anchor s off = Some (st, tn) ->
     exists n, open_tag_match s st = Some n /\ tn = to_lower n).
Proof.
  split; [|split; [exact open_tag_match_iff|split; [exact tag_matches_sound|split;
    [|split; [exact opening_candidate_eq|split; [exact back_body_match|exact find_anchor_sound]]]]]].
  - intro r. split.
    + intro H. destruct (tag_regex_at r) as [[[full name] attrs]|] eqn:E;
        [|exfalso; apply H; reflexivity].
      destruct (tag_regex_at_spec _ _ _ _ E) as (sl & rest & Hr & _ & Hsl & Hn & Hw & Ha).
      exists sl, name, attrs, rest. auto.
    + intros (sl & w & a & rest & -> & Hsl & Hw & Hww & _).
      apply tag_regex_at_some; assumption.
  - intros s j Hj Hm. unfold tag_matches.
    destruct (exec_all_complete (S (length s)) s 0 ltac:(lia) j Hj Hm) as (m & Hin & Hidx).
    exists m. split; [exact Hin|]. lia.
Qed.

Lemma tag_recognition_patterns_witness :
  In (nth 1 (tag_matches div_x) no_match) (tag_matches div_x) /\
  tag_regex_at (skipn (m_index (nth 1 (tag_matches div_x) no_match)) div_x) =
    Some (m_full (nth 1 (tag_matches div_x) no_match),
          m_name (nth 1 (tag_matches div_x) no_match),
          m_attrs (nth 1 (tag_matches div_x) no_match)).
Proof.
  assert (H : In (nth 1 (tag_matches div_x) no_match) (tag_matches div_x))
    by (apply nth_In; vm_compute; lia).
  split; [exact H|].
  exact (proj1 (proj2 (proj2 tag_recognition_patterns)) div_x _ H).
Defined.

(** C9, counterexample to the original wording: [<1>] is a token of the tree
    builder, while the pattern as worded requires a letter after [<]. *)
Lemma tag_pattern_word_name_counterexample :
  tag_regex_at one_tag <> None /\ claimed_tag_at one_tag = false /\
  map m_name (tag_matches one_tag) = [str "1"].
Proof. split; [vm_compute; discriminate|]. split; vm_compute; reflexivity. Qed.

(** ** C4, balance *)

(** C4, counterexample to the balance part: on [div_with_close_in_attr] the
    range found from offset 0 is not balanced for [div]; its closing tag lies
    inside an attribute value, which the tag scan reads as part of a [p]
    token. *)
Lemma findCompleteHtmlElement_balance_counterexample :
  ~ (forall s off st e, findCompleteHtmlElement s off = Some (st, e) ->
       exists name, open_tag_match s st = Some name /\
                    tag_balance (to_lower name) (tag_matches (substring s st e)) = 0%Z).
Proof.
  intro H.
  destruct (H div_with_close_in_attr 0 0 21 ltac:(vm_compute; reflexivity))
    as (name & Hn & Hb).
  vm_compute in Hn. injection Hn as <-. vm_compute in Hb. discriminate.
Qed.

(** * Further properties of the tree builder *)

Lemma make_element_cs : forall m,
  collapsibleState (make_element m) = if isSelfClosing m then CS_None else CS_Collapsed.
Proof.
  intro m. unfold make_element, isSelfClosing. cbn [collapsibleState].
  destruct (ends_with (str "/>") (m_full m)); [reflexivity|].
  destruct (is_self_closing_tag (to_lower (m_name m))); reflexivity.
Qed.

Lemma strip_attach : forall d n, collapsibleState d = CS_Collapsed ->
  strip (updateCollapsibleState (push_child n d)) = strip d.
Proof.
  intros [l v c ch0 t i cl] n H. cbn in H. subst c.
  unfold updateCollapsibleState, push_child, strip. cbn.
  destruct (ch0 ++ [n]); reflexivity.
Qed.

Lemma step_fields : forall ops ds st m, tb_inv ops ds st -> fields_inv ops st ->
  fields_inv (ops ++ (if is_skipped m || isClosingTag m then [] else [m])) (step st m).
Proof.
  intros ops ds [h Sk R] m H HF. unfold step. cbn [store stack roots].
  destruct (is_skipped m) eqn:Hsk; simpl orb.
  { rewrite app_nil_r. exact HF. }
  destruct (isClosingTag m) eqn:Hcl.
  { rewrite app_nil_r. destruct Sk as [|top rest]; [exact HF|].
    destruct (text_eqb _ _); exact HF. }
  unfold tb_inv in H. cbn [store stack roots] in H.
  destruct H as (Hops & _ & _ & _ & _ & _ & Hst & _ & _ & _).
  unfold fields_inv in HF. cbn [store] in HF.
  set (N := length h) in *. set (e := make_element m).
  assert (Hold : forall k, k < N ->
            strip (lookup (h ++ [e]) k) = strip (make_element (nth k (ops ++ [m]) no_match))).
  { intros k Hk. rewrite lookup_app_lt, nth_ops_app by (unfold N in *; lia). apply HF, Hk. }
  assert (Hnew : strip (lookup (h ++ [e]) N) = strip (make_element (nth N (ops ++ [m]) no_match))).
  { unfold N at 1. rewrite lookup_app_eq, <- Hops, nth_ops_last. reflexivity. }
  destruct Sk as [|p S'].
  - unfold fields_inv. cbn zeta. cbn [store]. rewrite length_app. simpl length.
    intros k Hk. destruct (Nat.eq_dec k N) as [->|Hne]; [exact Hnew|]. apply Hold. lia.
  - destruct (Hst p (or_introl eq_refl)) as [HpN Hpsc].
    change (update_at (h ++ [e]) p
              (fun d => updateCollapsibleState (push_child N d)))
      with (attach h p e).
    unfold fields_inv. cbn zeta. cbn [store]. rewrite length_attach.
    intros k Hk. rewrite lookup_attach.
    destruct ((k =? p) && (p <? S (length h))) eqn:Hkp.
    + apply andb_prop in Hkp as [Hkp _]. apply Nat.eqb_eq in Hkp. subst k.
      rewrite strip_attach; [apply Hold; exact HpN|].
      rewrite lookup_app_lt by exact HpN.
      pose proof (f_equal collapsibleState (HF p HpN)) as Hc. cbn [strip collapsibleState] in Hc.
      rewrite Hc, make_element_cs, Hpsc. reflexivity.
    + destruct (Nat.eq_dec k N) as [->|Hne]; [exact Hnew|]. apply Hold. lia.
Qed.

Lemma run_fields : forall ms st ops ds, tb_inv ops ds st -> fields_inv ops st ->
  fields_inv (ops ++ opening_tokens ms) (run st ms).
Proof.
  induction ms as [|m ms IH]; intros st ops ds H HF.
  - simpl. rewrite app_nil_r. exact HF.
  - rewrite run_cons, opening_tokens_cons, app_assoc.
    apply (IH _ _ (ds ++ (if is_skipped m || isClosingTag m then [] else [length (stack st)]))).
    + apply step_inv, H.
    + apply step_fields with (ds := ds); assumption.
Qed.

Lemma run_tag_matches_fields : forall ms,
  fields_inv (opening_tokens ms) (run init_state ms).
Proof.
  intro ms. apply (run_fields ms init_state [] [] tb_inv_init).
  intros k Hk. simpl in Hk. lia.
Qed.

Lemma node_item_reify : forall h f i, node_item (reify h f i) = lookup h i.
Proof. intros h [|f] i; reflexivity. Qed.

Lemma node_ref_reify : forall h f i, node_ref (reify h f i) = i.
Proof. intros h [|f] i; reflexivity. Qed.

(** For every document, malformed or not: the forest, walked in preorder,
    holds one node per opening tag, in document order, each carrying that
    tag's name in lower case; closing tags never add or remove nodes. *)
Theorem parseHTMLHierarchy_preorder_tokens : forall s,
  map (fun q => node_ref (fst q)) (forest_preorder (parseHTMLHierarchy s)) =
    seq 0 (length (opening_tokens (tag_matches s))) /\
  map (fun q => tagName (node_item (fst q))) (forest_preorder (parseHTMLHierarchy s)) =
    map (fun m => to_lower (m_name m)) (opening_tokens (tag_matches s)).
Proof.
  intro s. pose proof (run_tag_matches_inv (tag_matches s)) as Hinv.
  rewrite parseHTMLHierarchy_unfold.
  set (st := run init_state (tag_matches s)) in *.
  destruct Hinv as (Hops & Hds & Hsc & Hr & Hpre & _ & _ & _ & Htag & _).
  set (h := store st) in *. set (N := length h) in *.
  assert (Hrefs : map (fun q => node_ref (fst q)) (forest_preorder (map (reify h N) (roots st)))
                  = seq 0 N).
  { transitivity (map fst (ref_depths (map (reify h N) (roots st)))).
    - unfold ref_depths. rewrite map_map. reflexivity.
    - rewrite ref_depths_reify, Hpre. apply map_fst_combine'. rewrite length_seq. auto. }
  split; [rewrite Hrefs, Hops; reflexivity|].
  transitivity (map (fun k => tagName (lookup h k))
                  (map (fun q => node_ref (fst q)) (forest_preorder (map (reify h N) (roots st))))).
  - rewrite map_map. apply map_ext_in. intros q Hq.
    apply forest_nodes_reify in Hq as [[f' Hf'] _]. rewrite Hf' at 1.
    rewrite node_item_reify. reflexivity.
  - rewrite Hrefs.
    rewrite <- (map_nth_seq' (opening_tokens (tag_matches s)) no_match), map_map.
    rewrite Hops. apply map_ext_in. intros k Hk. apply in_seq in Hk.
    apply Htag. lia.
Qed.

(** Each tree item shows the data of its own opening tag: its id and class
    are the extracted [id] and [class] attributes, its description is the id,
    else the class, else the tag name, its label is the one built from the
    tag, and it is collapsible exactly when its tag is neither self-closing
    nor void, whether or not it has children. *)
Theorem parseHTMLHierarchy_item_fields : forall s q,
  In q (forest_preorder (parseHTMLHierarchy s)) ->
  let m := nth (node_ref (fst q)) (opening_tokens (tag_matches s)) no_match in
  let it := node_item (fst q) in
  elementId it = extractAttribute (m_attrs m) (str "id") /\
  className it = extractAttribute (m_attrs m) (str "class") /\
  version it = (if non_empty (elementId it) then elementId it
                else if non_empty (className it) then className it else tagName it) /\
  label it = label (make_element m) /\
  collapsibleState it = (if isSelfClosing m then CS_None else CS_Collapsed).
Proof.
  intros s q Hq m it. rewrite parseHTMLHierarchy_unfold in Hq.
  pose proof (run_tag_matches_inv (tag_matches s)) as Hinv.
  pose proof (run_tag_matches_fields (tag_matches s)) as HF.
  set (st := run init_state (tag_matches s)) in *.
  apply forest_nodes_reify in Hq as [[f' Hf'] Hv].
  destruct Hinv as (Hops & Hds & _ & _ & Hpre & _).
  rewrite Hpre, map_fst_combine', in_seq in Hv by (rewrite length_seq; auto).
  pose proof (HF (node_ref (fst q)) ltac:(lia)) as Hk.
  assert (Hit : it = lookup (store st) (node_ref (fst q)))
    by (unfold it; rewrite Hf' at 1; apply node_item_reify).
  fold m in Hk. rewrite <- Hit in Hk. clearbody it m. clear - Hk.
  pose proof (f_equal elementId Hk) as H1. pose proof (f_equal className Hk) as H2.
  pose proof (f_equal version Hk) as H3. pose proof (f_equal label Hk) as H4.
  pose proof (f_equal collapsibleState Hk) as H5. pose proof (f_equal tagName Hk) as H6.
  cbn [strip elementId className version label collapsibleState tagName] in *.
  rewrite H1, H2, H3, H4, H5, H6, make_element_cs.
  split; [reflexivity|]. split; [reflexivity|]. split; [reflexivity|]. split; reflexivity.
Qed.

Lemma parseHTMLHierarchy_item_fields_witness :
  In (nth 1 (forest_preorder (parseHTMLHierarchy div_p)) (mkNode 0 default_dependency [], 0))
     (forest_preorder (parseHTMLHierarchy div_p)) /\
  node_kids (fst (nth 1 (forest_preorder (parseHTMLHierarchy div_p))
                    (mkNode 0 default_dependency [], 0))) = [] /\
  collapsibleState (node_item (fst (nth 1 (forest_preorder (parseHTMLHierarchy div_p))
                                      (mkNode 0 default_dependency [], 0)))) = CS_Collapsed.
Proof.
  assert (H : In (nth 1 (forest_preorder (parseHTMLHierarchy div_p))
                    (mkNode 0 default_dependency [], 0))
                 (forest_preorder (parseHTMLHierarchy div_p)))
    by (apply nth_In; vm_compute; lia).
  split; [exact H|]. split; [vm_compute; reflexivity|].
  rewrite (proj2 (proj2 (proj2 (proj2 (parseHTMLHierarchy_item_fields div_p _ H))))).
  vm_compute. reflexivity.
Defined.

(** * Further properties of the element-range locator and its caller *)

Lemma findCompleteHtmlElement_bounds : forall s off st e,
  findCompleteHtmlElement s off = Some (st, e) ->
  st < e <= length s /\ is_char s st "<"%char = true.
Proof.
  intros s off st e H. unfold findCompleteHtmlElement in H.
  destruct (find_anchor s off) as [[st0 tn]|] eqn:Ha; [|discriminate].
  apply find_anchor_sound in Ha as (name & Hname & ->).
  pose proof (open_tag_match_spec _ _ _ Hname) as (Hlt & Hn & _).
  destruct (index_of s (str ">") st0) as [oe|] eqn:Hoe; [|discriminate].
  pose proof (index_of_gt_spec _ _ _ Hoe) as Hoe'.
  destruct (ends_with (str "/>") (substring s st0 (oe + 1))) eqn:Hsc.
  { injection H as <- <-. split; [lia|exact Hlt]. }
  destruct (is_void (to_lower name)) eqn:Hv.
  { injection H as <- <-. split; [lia|exact Hlt]. }
  apply match_loop_sound in H as [<- (c & -> & Hc & Hle & Hbal & Hpre)];
    [|apply to_lower_name; exact Hn].
  pose proof (close_at_fits _ _ _ Hc).
  split; [lia|exact Hlt].
Qed.

Lemma is_char_skipn : forall s i c, is_char s i c = true ->
  exists r, skipn i s = c :: r.
Proof.
  intros s i c H. unfold is_char in H.
  destruct (nth_error s i) as [c'|] eqn:E; [|discriminate].
  apply Ascii.eqb_eq in H. subst c'.
  revert s E. induction i as [|i IH]; intros [|x s] E; simpl in *; try discriminate.
  - injection E as ->. exists s. reflexivity.
  - apply IH. exact E.
Qed.

Lemma cursorOffset_min : forall a b, cursorOffset a b = Nat.min a b.
Proof.
  intros a b. unfold cursorOffset. destruct (a =? b) eqn:E; [|reflexivity].
  apply Nat.eqb_eq in E. subst. rewrite Nat.min_id. reflexivity.
Qed.

(** The removal command edits the document only when the file name ends in
    [.html], an element range [start, end) is found at the smaller end of the
    selection, the answer is [Remove] and the edit applies; the new text is
    then the old one with exactly that range, which starts with [<], cut out,
    so it is shorter by [end - start > 0]. *)
Theorem removeHtmlElement_cuts_range : forall fileName fullText anchor active answer applied t',
  removeHtmlElement (Some (fileName, fullText)) anchor active answer applied = ElementRemoved t' ->
  ends_with (str ".html") fileName = true /\ answer = Some (str "Remove") /\ applied = true /\
  exists st e,
    findCompleteHtmlElement fullText (Nat.min anchor active) = Some (st, e) /\
    st < e <= length fullText /\
    fullText = firstn st fullText ++ substring fullText st e ++ skipn e fullText /\
    prefixb (str "<") (substring fullText st e) = true /\
    t' = firstn st fullText ++ skipn e fullText /\
    length t' = length fullText - (e - st).
Proof.
  intros fileName fullText anchor active answer applied t' H.
  unfold removeHtmlElement in H. rewrite cursorOffset_min in H.
  destruct (ends_with (str ".html") fileName) eqn:Hf; [|discriminate]. cbn [negb] in H.
  destruct (findCompleteHtmlElement fullText (Nat.min anchor active)) as [[st e]|] eqn:Hr;
    [|discriminate].
  destruct answer as [a|]; [|discriminate].
  destruct (text_eqb a (str "Remove")) eqn:Ha; [|discriminate].
  apply text_eqb_eq in Ha. subst a.
  destruct applied; [|discriminate]. injection H as <-.
  split; [reflexivity|]. split; [reflexivity|]. split; [reflexivity|].
  destruct (findCompleteHtmlElement_bounds _ _ _ _ Hr) as [Hb Hc].
  exists st, e. split; [reflexivity|]. split; [exact Hb|].
  split; [|split; [|split; [reflexivity|]]].
  - unfold substring. rewrite <- (firstn_skipn st fullText) at 1. f_equal.
    rewrite <- (firstn_skipn (e - st) (skipn st fullText)) at 1. f_equal.
    rewrite skipn_skipn. f_equal. lia.
  - destruct (is_char_skipn _ _ _ Hc) as (r & Hr'). unfold substring. rewrite Hr'.
    destruct (e - st) as [|k] eqn:Ek; [lia|]. reflexivity.
  - rewrite length_app, length_firstn, length_skipn. lia.
Qed.

Lemma removeHtmlElement_cuts_range_witness :
  removeHtmlElement (Some (str "page.html", nested_divs)) 32 32 (Some (str "Remove")) true =
    ElementRemoved (html "<div id='outer'></div>") /\
  length (html "<div id='outer'></div>") = length nested_divs - (39 - 16).
Proof.
  assert (H : removeHtmlElement (Some (str "page.html", nested_divs)) 32 32
                (Some (str "Remove")) true = ElementRemoved (html "<div id='outer'></div>"))
    by (vm_compute; reflexivity).
  split; [exact H|].
  destruct (removeHtmlElement_cuts_range _ _ _ _ _ _ _ H)
    as (_ & _ & _ & st & e & Hr & _ & _ & _ & _ & Hlen).
  vm_compute in Hr. injection Hr as <- <-. exact Hlen.
Defined.

(** A text with no [<], the empty text among them, has no element anywhere:
    the locator returns [null] for every offset, and the removal command on an
    HTML file reports that no element was found. *)
Theorem no_angle_bracket_not_found : forall s off,
  ~ In "<"%char s ->
  findCompleteHtmlElement s off = None /\
  forall fileName anchor active answer applied,
    ends_with (str ".html") fileName = true ->
    removeHtmlElement (Some (fileName, s)) anchor active answer applied = ElementNotFound.
Proof.
  intros s off Hs.
  assert (Hn : forall o, findCompleteHtmlElement s o = None).
  { intro o. destruct (findCompleteHtmlElement s o) as [[st e]|] eqn:Hr; [|reflexivity].
    exfalso. destruct (findCompleteHtmlElement_bounds _ _ _ _ Hr) as [_ Hc].
    unfold is_char in Hc. destruct (nth_error s st) as [c|] eqn:E; [|discriminate].
    apply Ascii.eqb_eq in Hc. subst c. apply Hs. eapply nth_error_In. exact E. }
  split; [apply Hn|]. intros fileName anchor active answer applied Hf.
  unfold removeHtmlElement. rewrite Hf. cbn [negb]. rewrite Hn. reflexivity.
Qed.

Lemma no_angle_bracket_not_found_witness :
  findCompleteHtmlElement (str "plain text") 3 = None /\
  removeHtmlElement (Some (str "a.html", [])) 0 0 (Some (str "Remove")) true = ElementNotFound.
Proof.
  split.
  - apply (proj1 (no_angle_bracket_not_found (str "plain text") 3 ltac:(vm_compute; intuition discriminate))).
  - apply (proj2 (no_angle_bracket_not_found [] 0 (fun H => H))). reflexivity.
Defined.

(** * Settings, backups and the stored IP address *)

Lemma text_eqb_refl : forall a, text_eqb a a = true.
Proof. intro a. apply text_eqb_eq. reflexivity. Qed.

(** After activation with or without a workspace, [refreshViews] always falls
    back to reloading the window and [resetExtensionState] refreshes nothing,
    and the file watcher's handler always ends in a [TypeError]: the provider
    has no [refresh] method. *)
Theorem views_never_refreshed : forall rootPath,
  refreshViews (activate_globals rootPath init_globals) = ReloadWindow /\
  resetExtensionState (activate_globals rootPath init_globals) = NoRefresh /\
  (forall a, watcher_event rootPath = Some a -> a = TypeErrorThrown).
Proof.
  intros [r|]; (split; [reflexivity|split]).
  - vm_compute. reflexivity.
  - intros a H. vm_compute in H. injection H as <-. reflexivity.
  - reflexivity.
  - intros a H. discriminate H.
Qed.

Lemma views_never_refreshed_witness :
  watcher_event (Some (str "/home/user/site")) = Some TypeErrorThrown.
Proof.
  destruct (watcher_event (Some (str "/home/user/site"))) as [a|] eqn:E.
  - rewrite (proj2 (proj2 (views_never_refreshed (Some (str "/home/user/site")))) a E).
    reflexivity.
  - vm_compute in E. discriminate E.
Defined.

(** When a non-empty backup of the file's name already exists,
    [backupCurrentFile] reports success but leaves the store unchanged, so a
    later recovery restores the old backup, not the text that was current at
    the manual backup; outside a workspace folder recovery finds no backup. *)
Theorem backupCurrentFile_keeps_first_backup : forall env g f c old,
  cfg_get c (backupKey (basename env f)) = Some old -> old <> [] ->
  backupCurrentFile env (Some f) true c = BackedUp c /\
  recoverOriginalFile env g (Some f) true c (Some (str "Recover Original")) true
    = Recovered old (resetExtensionState g) /\
  (forall answer applied,
     recoverOriginalFile env g (Some f) false c answer applied = NoBackupFound).
Proof.
  intros env g f c old Hc Hne.
  assert (Ht : truthy (cfg_get c (backupKey (basename env f))) = true)
    by (rewrite Hc; destruct old; [contradiction|reflexivity]).
  split; [|split].
  - unfold backupCurrentFile, backupSingleFile. cbv zeta. rewrite Ht. reflexivity.
  - unfold recoverOriginalFile, getBackupContent, or_null. rewrite Ht, Hc.
    rewrite text_eqb_refl. reflexivity.
  - intros answer applied. reflexivity.
Qed.

Lemma backupCurrentFile_keeps_first_backup_witness :
  recoverOriginalFile env_ex init_globals (Some (str "w/who_am_i.html")) true
    [(backupKey (str "who_am_i.html"), str "old")] (Some (str "Recover Original")) true
    = Recovered (str "old") NoRefresh.
Proof.
  exact (proj1 (proj2 (backupCurrentFile_keeps_first_backup env_ex init_globals
                         (str "w/who_am_i.html") [(backupKey (str "who_am_i.html"), str "old")]
                         (str "old") ltac:(vm_compute; reflexivity) ltac:(discriminate)))).
Defined.

Lemma first_existing_candidate_some : forall env fs p,
  first_existing_candidate env fs = Some p ->
  existsSync env p = true /\
  exists pre folder rest, fs = pre ++ folder :: rest /\ p = whoAmICandidate env folder /\
    forallb (fun d => negb (existsSync env (whoAmICandidate env d))) pre = true.
Proof.
  intros env. induction fs as [|d fs IH]; intros p H; [discriminate|].
  cbn [first_existing_candidate] in H.
  destruct (existsSync env (whoAmICandidate env d)) eqn:E.
  - injection H as <-. split; [exact E|]. exists [], d, fs. auto.
  - destruct (IH p H) as (Hp & pre & folder & rest & -> & -> & Hpre).
    split; [exact Hp|]. exists (d :: pre), folder, rest. cbn [app forallb].
    rewrite E, Hpre. auto.
Qed.

Lemma first_existing_candidate_iff : forall env fs,
  existsb (fun folder => existsSync env (whoAmICandidate env folder)) fs = true <->
  exists p, first_existing_candidate env fs = Some p.
Proof.
  intros env. induction fs as [|d fs IH].
  - split; [discriminate|]. intros [p H]. discriminate H.
  - cbn [existsb first_existing_candidate].
    destruct (existsSync env (whoAmICandidate env d)); cbn [orb].
    + split; [intros _; eexists; reflexivity|reflexivity].
    + exact IH.
Qed.

(** The activation check and the two open commands agree: the check
    succeeds exactly when the commands find a file to open, and that file is
    the [who_am_i.html] of the first folder, in order, where it exists. *)
Theorem whoAmI_open_agrees : forall env folders,
  (isWhoAmIWorkspaceOpen env folders = true <-> exists p, openWhoAmIFile env folders = Some p) /\
  (forall p, openWhoAmIFile env folders = Some p ->
     existsSync env p = true /\
     exists fs pre folder rest, folders = Some fs /\ fs = pre ++ folder :: rest /\
       p = whoAmICandidate env folder /\
       forallb (fun d => negb (existsSync env (whoAmICandidate env d))) pre = true).
Proof.
  intros env folders. split.
  - destruct folders as [[|d fs]|]; cbn [isWhoAmIWorkspaceOpen openWhoAmIFile].
    + split; [discriminate|]. intros [p H]. discriminate H.
    + apply first_existing_candidate_iff.
    + split; [discriminate|]. intros [p H]. discriminate H.
  - intros p H. destruct folders as [fs|]; [|discriminate H].
    cbn [openWhoAmIFile] in H.
    destruct (first_existing_candidate_some env fs p H) as (Hp & pre & folder & rest & Hfs & Hq & Hpre).
    split; [exact Hp|]. exists fs, pre, folder, rest. auto.
Qed.

Lemma whoAmI_open_agrees_witness :
  existsSync env_ex (str "a/who_am_i.html") = true /\
  isWhoAmIWorkspaceOpen env_ex (Some [str "a"; str "b"]) = true.
Proof.
  split.
  - exact (proj1 (proj2 (whoAmI_open_agrees env_ex (Some [str "a"; str "b"]))
                     (str "a/who_am_i.html") ltac:(vm_compute; reflexivity))).
  - apply (proj2 (proj1 (whoAmI_open_agrees env_ex (Some [str "a"; str "b"])))).
    eexists. vm_compute. reflexivity.
Defined.
